(** * LabPriorityQueue: the array-backed binary heap of [custom::priority_queue]

    The repository holds two variants of [priority_queue.h]:

    - [src/unnamed/part_000], the variant whose heap operations are written
      out; it is embedded in [Module PQ];
    - [src/priority_queue.h], whose [pop] and [push] bodies are commented out
      and whose [percolateDown] uses [operator<]; it is embedded in
      [Module PQStub].

    A queue is its [container] (a [list T], storage offset [0] first) together
    with its [compare] predicate.  Member functions are state passing: they
    take the container and return an [outcome] holding the new container. *)

From Stdlib Require Import ZArith Lia.
From stdpp Require Import base list.

Local Open Scope Z_scope.

(** ** Machine integers *)

Module MachineInt.

(** [size_t] is an unsigned 64-bit integer: arithmetic wraps. *)
Definition SIZE_MODULUS : Z := 2 ^ 64.
Definition wrap_size_t (z : Z) : Z := z mod SIZE_MODULUS.

(** Largest size a contiguous container can have. *)
Definition PTRDIFF_MAX : Z := 2 ^ 63 - 1.

(** [int] is a signed 32-bit integer. *)
Definition INT_MAX : Z := 2 ^ 31 - 1.

(** Conversion of a [size_t] value to [int] keeps the low 32 bits
    (two's complement). *)
Definition to_int (z : Z) : Z := (z + 2 ^ 31) mod 2 ^ 32 - 2 ^ 31.

End MachineInt.

Import MachineInt.

(** ** Outcomes of a member function *)

Inductive outcome (A : Type) : Type :=
| Ok (a : A)            (* normal return *)
| Throw_out_of_range    (* [throw std::out_of_range] *)
| Undefined             (* the container was used outside its contract *)
| NoFuel.               (* the recursion budget of the model ran out *)

Arguments Ok {A} a.
Arguments Throw_out_of_range {A}.
Arguments Undefined {A}.
Arguments NoFuel {A}.

Definition outcome_bind {A B : Type} (f : A → outcome B) (m : outcome A) : outcome B :=
  match m with
  | Ok a => f a
  | Throw_out_of_range => Throw_out_of_range
  | Undefined => Undefined
  | NoFuel => NoFuel
  end.

#[global] Instance outcome_mbind : MBind outcome := @outcome_bind.
#[global] Instance outcome_mret : MRet outcome := @Ok.

(** ** The backing container *)

Module Vector.
Section Vector.
Context {T : Type}.

(** Modelled from the spec: [custom::vector] ([vector.h]) is not among the
    sources.  The collaborator contract lists [size], [empty], [front]
    (element at offset 0), random-access indexing, [push_back] (append) and
    [pop_back] (remove-last).  An index outside the storage, [front] of empty
    storage and removing the last element of empty storage are outside that
    contract and yield [Undefined]. *)
Definition size (v : list T) : Z := Z.of_nat (length v).

Definition empty (v : list T) : bool := size v =? 0.

Definition front (v : list T) : outcome T :=
  match v with
  | x :: _ => Ok x
  | [] => Undefined
  end.

(** [v[i]] *)
Definition index (v : list T) (i : Z) : outcome T :=
  if (0 <=? i) && (i <? size v) then
    match v !! Z.to_nat i with
    | Some x => Ok x
    | None => Undefined
    end
  else Undefined.

Definition push_back (v : list T) (t : T) : list T := v ++ [t].

Definition pop_back (v : list T) : outcome (list T) :=
  match v with
  | [] => Undefined
  | _ :: _ => Ok (take (length v - 1)%nat v)
  end.


(** [swap(v[i], v[j])]: both references are taken, then the two values are
    exchanged. *)
Definition swap_at (v : list T) (i j : Z) : outcome (list T) :=
  x ← index v i;
  y ← index v j;
  Ok (<[Z.to_nat j := x]> (<[Z.to_nat i := y]> v)).

(** Modelled from the spec: [reserve] is a capacity hint; the capacity is
    not part of the model, the elements are left as they are. *)
Definition reserve (v : list T) (n : Z) : list T := v.

End Vector.
End Vector.

Import Vector.

(** ** The heap invariant *)

Section HeapInvariant.
Context {T : Type} (compare : T → T → bool).

(** Heap index [i] (1-based) maps to storage offset [i - 1]. *)
Definition element_at (c : list T) (i : Z) : option T :=
  if i <? 1 then None else c !! Z.to_nat (i - 1).

(** [outranks c p ch]: both nodes exist and [compare(element_at(p),
    element_at(ch))] holds. *)
Definition outranks (c : list T) (p ch : Z) : bool :=
  match element_at c p, element_at c ch with
  | Some x, Some y => compare x y
  | _, _ => false
  end.

(** Neither child of node [i] outranks it. *)
Definition heap_ok_at (c : list T) (i : Z) : bool :=
  negb (outranks c i (2 * i)) && negb (outranks c i (2 * i + 1)).

Definition is_heap (c : list T) : Prop :=
  ∀ i : Z, 1 ≤ i → heap_ok_at c i = true.

(** Executable check over the valid heap indices [1 .. size]. *)
Definition is_heapb (c : list T) : bool :=
  forallb (λ n : nat, heap_ok_at c (Z.of_nat n)) (seq 1 (length c)).

(** Number of levels of the implicit tree. *)
Definition height (c : list T) : nat := S (Z.to_nat (Z.log2 (size c))).

End HeapInvariant.

(** A comparator is a strict weak ordering: irreflexive, transitive, and
    incomparability is transitive. *)
Record StrictWeakOrder {T : Type} (compare : T → T → bool) : Prop := {
  swo_irrefl : ∀ a, compare a a = false;
  swo_trans : ∀ a b c, compare a b = true → compare b c = true → compare a c = true;
  swo_incomp : ∀ a b c,
    compare a b = false → compare b a = false →
    compare b c = false → compare c b = false →
    compare a c = false
}.

(** ** [src/unnamed/part_000] *)

Module PQ.
Section PQ.
Context {T : Type} (compare : T → T → bool).

(** [top() const] *)
Definition top (container : list T) : outcome (T * list T) :=
  if negb (empty container) then
    x ← front container; Ok (x, container)
  else Throw_out_of_range.

(** [percolateDown(indexHeap)]; the result is the new container and the
    returned flag. *)
Fixpoint percolateDown_fuel (fuel : nat) (container : list T) (indexHeap : Z)
  : outcome (list T * bool) :=
  match fuel with
  | O => NoFuel
  | S fuel' =>
    let indexLeft := wrap_size_t (2 * indexHeap) in
    let indexRight := wrap_size_t (indexLeft + 1) in
    pickRight ←
      (if indexRight <=? size container then
         l ← index container (wrap_size_t (indexLeft - 1));
         r ← index container (wrap_size_t (indexRight - 1));
         Ok (compare l r)
       else Ok false);
    let indexBigger := if pickRight : bool then indexRight else indexLeft in
    doSwap ←
      (if indexBigger <=? size container then
         p ← index container (wrap_size_t (indexHeap - 1));
         b ← index container (wrap_size_t (indexBigger - 1));
         Ok (compare p b)
       else Ok false);
    if doSwap : bool then
      c1 ← swap_at container (wrap_size_t (indexHeap - 1))
                             (wrap_size_t (indexBigger - 1));
      '(c2, _) ← percolateDown_fuel fuel' c1 indexBigger;
      Ok (c2, true)
    else Ok (container, false)
  end.

Definition percolateDown (container : list T) (indexHeap : Z)
  : outcome (list T * bool) :=
  percolateDown_fuel (height container) container indexHeap.

(** [for (int i = container.size() / 2; i >= 0; i--) percolateDown(i + 1);]
    with [n] the number of iterations left, that is [i = n - 1].  The sum
    [i + 1] is an [int]; it overflows when [i = INT_MAX]. *)
Fixpoint heapify_loop (n : nat) (container : list T) : outcome (list T) :=
  match n with
  | O => Ok container
  | S i =>
    '(c1, _) ← (if Z.of_nat i <? INT_MAX
                then percolateDown container (wrap_size_t (Z.of_nat i + 1))
                else Undefined);
    heapify_loop i c1
  end.

Definition heapify (container : list T) : outcome (list T) :=
  let i := to_int (size container / 2) in
  if 0 <=? i then heapify_loop (Z.to_nat (i + 1)) container
  else Ok container.

(** [swap(container[0], container[size() - 1])] under [if (!empty())], then
    [container.pop_back()], then [percolateDown(1)]. *)
Definition pop (container : list T) : outcome (list T) :=
  c1 ← (if negb (empty container)
        then swap_at container 0 (wrap_size_t (size container - 1))
        else Ok container);
  c2 ← pop_back c1;
  '(c3, _) ← percolateDown c2 1;
  Ok c3.


(** [while (i > 0 && percolateDown(i)) i /= 2;] *)
Fixpoint push_walk (fuel : nat) (container : list T) (i : Z) : outcome (list T) :=
  match fuel with
  | O => NoFuel
  | S fuel' =>
    if 0 <? i then
      '(c1, changed) ← percolateDown container i;
      if changed : bool then push_walk fuel' c1 (i / 2) else Ok c1
    else Ok container
  end.

(** [size_t i = (container.size() + 1) / 2;] *)
Definition push_start (container : list T) : Z :=
  wrap_size_t (size container + 1) / 2.

(** [push(const T & t)].  The walk halves a 64-bit index, so 65 rounds
    always suffice. *)
Definition push (container : list T) (t : T) : outcome (list T) :=
  let c1 := push_back container t in
  push_walk 65 c1 (push_start c1).

(** [push(T && t)]: the same statements, the element is moved in. *)
Definition push_move (container : list T) (t : T) : outcome (list T) :=
  let c1 := push_back container t in
  push_walk 65 c1 (push_start c1).

(** [priority_queue(const Compare& c = Compare())]: empty container. *)
Definition priority_queue_default : list T := [].

(** The loop [for (auto it = first; it != last; ++it)] that calls [push]
    with each element of the range. *)
Fixpoint push_range (container : list T) (range : list T) {struct range}
  : outcome (list T) :=
  match range with
  | [] => Ok container
  | t :: rest => c1 ← push container t; push_range c1 rest
  end.

(** [priority_queue(Iterator first, Iterator last, ...)]:
    [container.reserve(last - first)], the pushes, then [heapify()]. *)
Definition priority_queue_range (range : list T) : outcome (list T) :=
  c1 ← push_range (reserve priority_queue_default (Z.of_nat (length range))) range;
  heapify c1.

(** [priority_queue(const Compare& c, Container&& rhs)] and
    [priority_queue(const Compare& c, Container& rhs)]: the container is
    taken over, then [heapify()]. *)
Definition priority_queue_container (rhs : list T) : outcome (list T) :=
  heapify rhs.

End PQ.
End PQ.

(** ** [src/priority_queue.h] *)

Module PQStub.
Section PQStub.
Context {T : Type} (lt : T → T → bool).

(** [top() const] *)
Definition top (container : list T) : outcome (T * list T) :=
  if negb (empty container) then
    x ← front container; Ok (x, container)
  else Throw_out_of_range.

(** [percolateDown(indexHeap)]; elements are compared with [operator<],
    here [lt]. *)
Fixpoint percolateDown_fuel (fuel : nat) (container : list T) (indexHeap : Z)
  : outcome (list T * bool) :=
  match fuel with
  | O => NoFuel
  | S fuel' =>
    let indexLeft := wrap_size_t (indexHeap * 2) in
    let indexRight := wrap_size_t (indexLeft + 1) in
    if (indexRight <=? size container) && (indexLeft <=? size container) then
      pickRight ←
        (if indexRight <=? size container then
           l ← index container (wrap_size_t (indexLeft - 1));
           r ← index container (wrap_size_t (indexRight - 1));
           Ok (lt l r)
         else Ok false);
      let indexBigger := if pickRight : bool then indexRight else indexLeft in
      p ← index container (wrap_size_t (indexHeap - 1));
      b ← index container (wrap_size_t (indexBigger - 1));
      if lt p b then
        c1 ← swap_at container (wrap_size_t (indexHeap - 1))
                               (wrap_size_t (indexBigger - 1));
        '(c2, _) ← percolateDown_fuel fuel' c1 indexBigger;
        Ok (c2, true)
      else Ok (container, false)
    else Ok (container, false)
  end.

Definition percolateDown (container : list T) (indexHeap : Z)
  : outcome (list T * bool) :=
  percolateDown_fuel (height container) container indexHeap.

(** [for (int i = container.size() / 2; i >= 0; i--) percolateDown(i);]
    with [n] the number of iterations left, that is [i = n - 1]. *)
Fixpoint heapify_loop (n : nat) (container : list T) : outcome (list T) :=
  match n with
  | O => Ok container
  | S i =>
    '(c1, _) ← percolateDown container (wrap_size_t (Z.of_nat i));
    heapify_loop i c1
  end.

Definition heapify (container : list T) : outcome (list T) :=
  let i := to_int (size container / 2) in
  if 0 <=? i then heapify_loop (Z.to_nat (i + 1)) container
  else Ok container.

(** [pop()]: the whole body is commented out. *)
Definition pop (container : list T) : outcome (list T) := Ok container.

(** [while (i && percolateDown(i)) i /= 2;] *)
Fixpoint push_walk (fuel : nat) (container : list T) (i : Z) : outcome (list T) :=
  match fuel with
  | O => NoFuel
  | S fuel' =>
    if negb (i =? 0) then
      '(c1, changed) ← percolateDown container i;
      if changed : bool then push_walk fuel' c1 (i / 2) else Ok c1
    else Ok container
  end.

(** [size_t i = size() / 2;] *)
Definition push_start (container : list T) : Z := size container / 2.

(** [push(const T & t)]: the [push_back] is commented out, [t] is unused. *)
Definition push (container : list T) (t : T) : outcome (list T) :=
  push_walk 65 container (push_start container).

(** [push(T && t)] *)
Definition push_move (container : list T) (t : T) : outcome (list T) :=
  push_walk 65 container (push_start container).

(** [priority_queue(const Compare& c = Compare())]: empty container. *)
Definition priority_queue_default : list T := [].

(** The loop [for (auto it = first; it != last; ++it)] that calls [push]
    with each element of the range. *)
Fixpoint push_range (container : list T) (range : list T) {struct range}
  : outcome (list T) :=
  match range with
  | [] => Ok container
  | t :: rest => c1 ← push container t; push_range c1 rest
  end.

(** [priority_queue(Iterator first, Iterator last, ...)]:
    [container.reserve(last - first)] and the pushes; no [heapify()]. *)
Definition priority_queue_range (range : list T) : outcome (list T) :=
  push_range (reserve priority_queue_default (Z.of_nat (length range))) range.

(** [priority_queue(const Compare& c, Container&& rhs)] and
    [priority_queue(const Compare& c, Container& rhs)]: the container is
    taken over, then [heapify()]. *)
Definition priority_queue_container (rhs : list T) : outcome (list T) :=
  heapify rhs.

End PQStub.
End PQStub.

(** ** The downward-restoration step in the words of the specification *)

Section SpecStep.
Context {T : Type} (compare : T → T → bool).

(** The "larger-child" candidate of node [i]: when the right child exists,
    the right child if [compare(left, right)] holds and the left child
    otherwise; when only the left child exists, the left child; none when
    the node has no child. *)
Definition spec_candidate (c : list T) (i : Z) : option Z :=
  let left := 2 * i in
  let right := left + 1 in
  if right <=? size c then
    Some (if outranks compare c left right then right else left)
  else if left <=? size c then Some left
  else None.

(** Exchange of the elements at heap indices [i] and [j]. *)
Definition spec_exchange (c : list T) (i j : Z) : list T :=
  match element_at c i, element_at c j with
  | Some x, Some y => <[Z.to_nat (j - 1) := x]> (<[Z.to_nat (i - 1) := y]> c)
  | _, _ => c
  end.

(** Swap with the candidate when it outranks the current node and go on
    from the candidate's position; otherwise stop.  The flag tells whether
    a swap occurred. *)
Fixpoint spec_percolateDown (fuel : nat) (c : list T) (i : Z)
  : outcome (list T * bool) :=
  match fuel with
  | O => NoFuel
  | S fuel' =>
    match spec_candidate c i with
    | Some cand =>
      if outranks compare c i cand then
        '(c2, _) ← spec_percolateDown fuel' (spec_exchange c i cand) cand;
        Ok (c2, true)
      else Ok (c, false)
    | None => Ok (c, false)
    end
  end.

(** The heap indices visited by the bulk restoration: from the midpoint of
    the buffer (storage offset [size / 2], heap index [size / 2 + 1]) down to
    the first index. *)
Definition midpoint_down (c : list T) : list Z :=
  map Z.of_nat (rev (seq 1 (Z.to_nat (size c / 2 + 1)))).

(** Run the downward-restoration step for every index of a list, in order. *)
Definition spec_restore_at (acc : outcome (list T)) (i : Z) : outcome (list T) :=
  c ← acc;
  '(c', _) ← spec_percolateDown (height c) c i;
  Ok c'.

Definition spec_heapify (c : list T) : outcome (list T) :=
  foldl spec_restore_at (Ok c) (midpoint_down c).

End SpecStep.

(** * Properties *)

(** ** Machine arithmetic and container access *)

Lemma wrap_size_t_small (z : Z) : 0 ≤ z < 2 ^ 64 → wrap_size_t z = z.
Proof. intros H. unfold wrap_size_t, SIZE_MODULUS. apply Z.mod_small. exact H. Qed.

Lemma to_int_small (z : Z) : 0 ≤ z ≤ INT_MAX → to_int z = z.
Proof.
  unfold to_int, INT_MAX. intros H.
  rewrite Z.mod_small; lia.
Qed.

Lemma bind_Ok {A B : Type} (a : A) (f : A → outcome B) : (Ok a ≫= f) = f a.
Proof. reflexivity. Qed.

Lemma bind_not_NoFuel {A B : Type} (m : outcome A) (f : A → outcome B) :
  m ≠ NoFuel → (∀ a, f a ≠ NoFuel) → (m ≫= f) ≠ NoFuel.
Proof. destruct m; intros Hm Hf; simpl; auto; discriminate. Qed.

Section Access.
Context {T : Type}.
Implicit Types (c : list T) (i : Z).

Lemma element_at_lookup c i : 1 ≤ i → element_at c i = c !! Z.to_nat (i - 1).
Proof. intros H. unfold element_at. destruct (Z.ltb_spec i 1); [lia | reflexivity]. Qed.

Lemma element_at_Some c i x : element_at c i = Some x → 1 ≤ i ≤ size c.
Proof.
  unfold element_at, size. destruct (Z.ltb_spec i 1); [discriminate |].
  intros Hx. apply lookup_lt_Some in Hx. lia.
Qed.

Lemma element_at_None c i : size c < i → element_at c i = None.
Proof.
  intros H. unfold element_at, size in *. destruct (Z.ltb_spec i 1); [reflexivity |].
  apply lookup_ge_None_2. lia.
Qed.

Lemma element_at_is_Some c i : 1 ≤ i ≤ size c → ∃ x, element_at c i = Some x.
Proof.
  intros H. rewrite element_at_lookup by lia.
  destruct (lookup_lt_is_Some_2 c (Z.to_nat (i - 1))) as [x Hx];
    [unfold size in H; lia | eauto].
Qed.

Lemma index_element_at c i x :
  element_at c (i + 1) = Some x → index c i = Ok x.
Proof.
  intros Hx. pose proof (element_at_Some _ _ _ Hx) as Hb.
  rewrite element_at_lookup in Hx by lia.
  replace (i + 1 - 1) with i in Hx by lia.
  unfold index.
  destruct (Z.leb_spec 0 i); [| lia].
  destruct (Z.ltb_spec i (size c)); [| lia].
  simpl. rewrite Hx. reflexivity.
Qed.

Lemma index_out c i : ¬ (0 ≤ i < size c) → index c i = Undefined.
Proof.
  intros H. unfold index.
  destruct (Z.leb_spec 0 i); simpl; [| reflexivity].
  destruct (Z.ltb_spec i (size c)); [lia | reflexivity].
Qed.

Lemma index_Ok_inv c i x : index c i = Ok x → 0 ≤ i < size c.
Proof.
  intros H. destruct (decide (0 ≤ i < size c)) as [Hin | Hout]; [exact Hin |].
  rewrite index_out in H by exact Hout. discriminate.
Qed.

Lemma size_insert c (n : nat) x : size (<[n := x]> c) = size c.
Proof. unfold size. rewrite length_insert. reflexivity. Qed.

Lemma size_spec_exchange c i j : size (spec_exchange c i j) = size c.
Proof.
  unfold spec_exchange.
  destruct (element_at c i), (element_at c j); rewrite ?size_insert; reflexivity.
Qed.

Lemma swap_at_exchange c i j x y :
  element_at c i = Some x → element_at c j = Some y →
  swap_at c (i - 1) (j - 1) = Ok (spec_exchange c i j).
Proof.
  intros Hx Hy. unfold swap_at, spec_exchange.
  rewrite (index_element_at c (i - 1) x) by (replace (i - 1 + 1) with i by lia; exact Hx).
  rewrite (index_element_at c (j - 1) y) by (replace (j - 1 + 1) with j by lia; exact Hy).
  rewrite Hx, Hy. reflexivity.
Qed.

End Access.

(** ** The step of [part_000] against the specification's step *)

Section Refinement.
Context {T : Type} (compare : T → T → bool).
Implicit Types (c : list T) (i : Z).

Lemma outranks_Some c p ch x y :
  element_at c p = Some x → element_at c ch = Some y →
  outranks compare c p ch = compare x y.
Proof. intros Hx Hy. unfold outranks. rewrite Hx, Hy. reflexivity. Qed.

Lemma outranks_absent c p ch : size c < ch → outranks compare c p ch = false.
Proof.
  intros H. unfold outranks. rewrite (element_at_None c ch H).
  destruct (element_at c p); reflexivity.
Qed.

Lemma percolateDown_fuel_unfold fuel c i :
  PQ.percolateDown_fuel compare (S fuel) c i =
    let indexLeft := wrap_size_t (2 * i) in
    let indexRight := wrap_size_t (indexLeft + 1) in
    pickRight ←
      (if indexRight <=? size c then
         l ← index c (wrap_size_t (indexLeft - 1));
         r ← index c (wrap_size_t (indexRight - 1));
         Ok (compare l r)
       else Ok false);
    let indexBigger := if pickRight : bool then indexRight else indexLeft in
    doSwap ←
      (if indexBigger <=? size c then
         p ← index c (wrap_size_t (i - 1));
         b ← index c (wrap_size_t (indexBigger - 1));
         Ok (compare p b)
       else Ok false);
    if doSwap : bool then
      c1 ← swap_at c (wrap_size_t (i - 1)) (wrap_size_t (indexBigger - 1));
      '(c2, _) ← PQ.percolateDown_fuel compare fuel c1 indexBigger;
      Ok (c2, true)
    else Ok (c, false).
Proof. reflexivity. Qed.

(** One round of the code, once the candidate is known to exist. *)
Lemma percolateDown_round fuel c i cand p b :
  1 ≤ i ≤ PTRDIFF_MAX → 1 ≤ cand ≤ PTRDIFF_MAX →
  element_at c i = Some p → element_at c cand = Some b →
  (doSwap ←
     (if cand <=? size c then
        p ← index c (wrap_size_t (i - 1));
        b ← index c (wrap_size_t (cand - 1));
        Ok (compare p b)
      else Ok false);
   if doSwap : bool then
     c1 ← swap_at c (wrap_size_t (i - 1)) (wrap_size_t (cand - 1));
     '(c2, _) ← PQ.percolateDown_fuel compare fuel c1 cand;
     Ok (c2, true)
   else Ok (c, false))
  = if outranks compare c i cand then
      '(c2, _) ← PQ.percolateDown_fuel compare fuel (spec_exchange c i cand) cand;
      Ok (c2, true)
    else Ok (c, false).
Proof.
  intros Hi Hcand Hp Hb.
  pose proof (element_at_Some _ _ _ Hp) as Hpi.
  pose proof (element_at_Some _ _ _ Hb) as Hbi.
  unfold PTRDIFF_MAX in *.
  rewrite !wrap_size_t_small by lia.
  destruct (Z.leb_spec cand (size c)); [| lia].
  rewrite (index_element_at c (i - 1) p)
    by (replace (i - 1 + 1) with i by lia; exact Hp).
  rewrite (index_element_at c (cand - 1) b)
    by (replace (cand - 1 + 1) with cand by lia; exact Hb).
  rewrite !bind_Ok.
  rewrite (outranks_Some c i cand p b Hp Hb).
  destruct (compare p b); [| reflexivity].
  rewrite (swap_at_exchange c i cand p b Hp Hb). reflexivity.
Qed.

Lemma percolateDown_fuel_refines fuel : ∀ c i,
  size c ≤ PTRDIFF_MAX → 1 ≤ i ≤ PTRDIFF_MAX →
  PQ.percolateDown_fuel compare fuel c i = spec_percolateDown compare fuel c i.
Proof.
  induction fuel as [| fuel IH]; intros c i Hc Hi; [reflexivity |].
  rewrite percolateDown_fuel_unfold. cbv zeta.
  change (spec_percolateDown compare (S fuel) c i) with
    (match spec_candidate compare c i with
     | Some cand =>
       if outranks compare c i cand then
         '(c2, _) ← spec_percolateDown compare fuel (spec_exchange c i cand) cand;
         Ok (c2, true)
       else Ok (c, false)
     | None => Ok (c, false)
     end).
  unfold spec_candidate. cbv zeta.
  assert (Hw1 : wrap_size_t (2 * i) = 2 * i)
    by (apply wrap_size_t_small; unfold PTRDIFF_MAX in *; lia).
  rewrite Hw1.
  assert (Hw2 : wrap_size_t (2 * i + 1) = 2 * i + 1)
    by (apply wrap_size_t_small; unfold PTRDIFF_MAX in *; lia).
  rewrite Hw2.
  destruct (Z.leb_spec (2 * i + 1) (size c)) as [Hr | Hr].
  - (* the right child exists *)
    destruct (element_at_is_Some c (2 * i)) as [l Hl]; [lia |].
    destruct (element_at_is_Some c (2 * i + 1)) as [r Hrr]; [lia |].
    destruct (element_at_is_Some c i) as [p Hp]; [lia |].
    assert (Hw3 : wrap_size_t (2 * i - 1) = 2 * i - 1)
      by (apply wrap_size_t_small; unfold PTRDIFF_MAX in *; lia).
    assert (Hw4 : wrap_size_t (2 * i + 1 - 1) = 2 * i + 1 - 1)
      by (apply wrap_size_t_small; unfold PTRDIFF_MAX in *; lia).
    rewrite Hw3, Hw4.
    rewrite (index_element_at c (2 * i - 1) l)
      by (replace (2 * i - 1 + 1) with (2 * i) by lia; exact Hl).
    rewrite (index_element_at c (2 * i + 1 - 1) r)
      by (replace (2 * i + 1 - 1 + 1) with (2 * i + 1) by lia; exact Hrr).
    rewrite !bind_Ok.
    rewrite (outranks_Some c (2 * i) (2 * i + 1) l r Hl Hrr).
    destruct (compare l r).
    + rewrite (percolateDown_round fuel c i (2 * i + 1) p r) by (auto; lia).
      rewrite IH by (rewrite ?size_spec_exchange; lia). reflexivity.
    + rewrite (percolateDown_round fuel c i (2 * i) p l) by (auto; lia).
      rewrite IH by (rewrite ?size_spec_exchange; lia). reflexivity.
  - (* no right child *)
    rewrite bind_Ok.
    destruct (Z.leb_spec (2 * i) (size c)) as [Hl | Hl].
    + destruct (element_at_is_Some c (2 * i)) as [l Hll]; [lia |].
      destruct (element_at_is_Some c i) as [p Hp]; [lia |].
      pose proof (percolateDown_round fuel c i (2 * i) p l) as Hround.
      destruct (Z.leb_spec (2 * i) (size c)); [| lia].
      rewrite Hround by (auto; lia).
      rewrite IH by (rewrite ?size_spec_exchange; lia). reflexivity.
    + destruct (Z.leb_spec (2 * i) (size c)); [lia |]. reflexivity.
Qed.

End Refinement.

(** ** Exchanging two elements *)

Section Exchange.
Context {T : Type}.
Implicit Types (c : list T) (i j m : Z).

Lemma element_at_exchange c i j x y m :
  element_at c i = Some x → element_at c j = Some y →
  element_at (spec_exchange c i j) m =
    if m =? j then Some x else if m =? i then Some y else element_at c m.
Proof.
  intros Hx Hy.
  pose proof (element_at_Some _ _ _ Hx) as Hi.
  pose proof (element_at_Some _ _ _ Hy) as Hj.
  unfold spec_exchange. rewrite Hx, Hy.
  unfold element_at at 1. unfold size in *.
  destruct (Z.ltb_spec m 1) as [Hm | Hm].
  - destruct (Z.eqb_spec m j); [lia |]. destruct (Z.eqb_spec m i); [lia |].
    unfold element_at. destruct (Z.ltb_spec m 1); [reflexivity | lia].
  - destruct (Z.eqb_spec m j) as [-> | Hmj].
    + apply list_lookup_insert_eq. rewrite length_insert. lia.
    + rewrite list_lookup_insert_ne by lia.
      destruct (Z.eqb_spec m i) as [-> | Hmi].
      * apply list_lookup_insert_eq. lia.
      * rewrite list_lookup_insert_ne by lia.
        symmetry. apply element_at_lookup. lia.
Qed.

Lemma insert_cons_Permutation (t : list T) (n : nat) (h y : T) :
  t !! n = Some y → y :: <[n := h]> t ≡ₚ h :: t.
Proof.
  revert n. induction t as [| z t IH]; intros [| n] Hn; simpl in *; try discriminate.
  - injection Hn as ->. apply perm_swap.
  - rewrite perm_swap. rewrite (IH n Hn). apply perm_swap.
Qed.

Lemma insert_insert_Permutation (l : list T) (a b : nat) (x y : T) :
  l !! a = Some x → l !! b = Some y →
  <[b := x]> (<[a := y]> l) ≡ₚ l.
Proof.
  revert a b. induction l as [| h t IH]; intros [| a] [| b] Ha Hb;
    simpl in *; try discriminate.
  - injection Ha as ->. injection Hb as ->. reflexivity.
  - injection Ha as ->. apply insert_cons_Permutation. exact Hb.
  - injection Hb as ->. apply insert_cons_Permutation. exact Ha.
  - f_equiv. apply IH; assumption.
Qed.

Lemma spec_exchange_Permutation c i j : spec_exchange c i j ≡ₚ c.
Proof.
  unfold spec_exchange.
  destruct (element_at c i) as [x |] eqn:Hx; [| reflexivity].
  destruct (element_at c j) as [y |] eqn:Hy; [| reflexivity].
  pose proof (element_at_Some _ _ _ Hx). pose proof (element_at_Some _ _ _ Hy).
  rewrite element_at_lookup in Hx by lia. rewrite element_at_lookup in Hy by lia.
  apply insert_insert_Permutation; assumption.
Qed.

End Exchange.

(** ** Strict weak orderings *)

Section Swo.
Context {T : Type} (compare : T → T → bool) (Hswo : StrictWeakOrder compare).

Lemma swo_asym a b : compare a b = true → compare b a = false.
Proof.
  intros Hab. destruct (compare b a) eqn:Hba; [| reflexivity].
  pose proof (swo_trans compare Hswo a b a Hab Hba) as Haa.
  rewrite (swo_irrefl compare Hswo a) in Haa. discriminate.
Qed.

(** If [v] is not below [l] and [l] is not below [r], then [v] is not
    below [r]. *)
Lemma swo_negtrans v l r :
  compare v l = false → compare l r = false → compare v r = false.
Proof.
  intros Hvl Hlr. destruct (compare v r) eqn:Hvr; [| reflexivity].
  destruct (compare l v) eqn:Hlv.
  { rewrite (swo_trans compare Hswo l v r Hlv Hvr) in Hlr. discriminate. }
  destruct (compare r l) eqn:Hrl.
  { rewrite (swo_trans compare Hswo v r l Hvr Hrl) in Hvl. discriminate. }
  rewrite (swo_incomp compare Hswo v l r Hvl Hlv Hlr Hrl) in Hvr. discriminate.
Qed.

(** If [v] is not below [r] and [l] is below [r], then [v] is not below [l]. *)
Lemma swo_not_below v l r :
  compare v r = false → compare l r = true → compare v l = false.
Proof.
  intros Hvr Hlr. destruct (compare v l) eqn:Hvl; [| reflexivity].
  rewrite (swo_trans compare Hswo v l r Hvl Hlr) in Hvr. discriminate.
Qed.

End Swo.

Lemma Zltb_StrictWeakOrder : StrictWeakOrder Z.ltb.
Proof.
  split.
  - intros a. apply Z.ltb_irrefl.
  - intros a b c Hab Hbc. apply Z.ltb_lt in Hab, Hbc. apply Z.ltb_lt. lia.
  - intros a b c Hab Hba Hbc Hcb.
    apply Z.ltb_ge in Hab, Hba, Hbc, Hcb. apply Z.ltb_ge. lia.
Qed.

(** ** The heap invariant, node by node *)

Section HeapFacts.
Context {T : Type} (compare : T → T → bool).
Implicit Types (c : list T) (i j : Z).

Lemma heap_ok_at_iff c i :
  heap_ok_at compare c i = true ↔
  ∀ ch, ch = 2 * i ∨ ch = 2 * i + 1 → outranks compare c i ch = false.
Proof.
  unfold heap_ok_at. rewrite andb_true_iff, !negb_true_iff. split.
  - intros [Hl Hr] ch [-> | ->]; assumption.
  - intros H. split; apply H; auto.
Qed.

Lemma outranks_false_iff c p ch :
  outranks compare c p ch = false ↔
  ∀ x y, element_at c p = Some x → element_at c ch = Some y → compare x y = false.
Proof.
  unfold outranks. split.
  - intros H x y Hx Hy. rewrite Hx, Hy in H. exact H.
  - intros H. destruct (element_at c p) as [x |]; [| reflexivity].
    destruct (element_at c ch) as [y |]; [| reflexivity].
    apply H; reflexivity.
Qed.

Lemma heap_ok_at_leaf c i : 1 ≤ i → size c < 2 * i → heap_ok_at compare c i = true.
Proof.
  intros Hi Hc. apply heap_ok_at_iff. intros ch Hch.
  apply outranks_absent. lia.
Qed.

Lemma is_heapb_is_heap c : is_heapb compare c = true ↔ is_heap compare c.
Proof.
  unfold is_heapb, is_heap. rewrite forallb_forall. split.
  - intros H i Hi.
    destruct (Z.le_gt_cases i (size c)) as [Hle | Hgt].
    + replace i with (Z.of_nat (Z.to_nat i)) by lia.
      apply H. apply in_seq. unfold size in Hle. lia.
    + apply heap_ok_at_leaf; lia.
  - intros H n Hn. apply H. apply in_seq in Hn. lia.
Qed.

Lemma height_bound c : size c < 2 ^ Z.of_nat (height c).
Proof.
  unfold height. rewrite Nat2Z.inj_succ.
  pose proof (Z.log2_nonneg (size c)) as Hlog.
  rewrite Z2Nat.id by exact Hlog.
  destruct (Z.eq_dec (size c) 0) as [-> | Hne].
  - simpl. lia.
  - apply Z.log2_spec. unfold size in *. lia.
Qed.

Lemma height_pos c : (1 ≤ height c)%nat.
Proof. unfold height. lia. Qed.

End HeapFacts.

(** ** The downward restoration restores the heap invariant *)

Section Sift.
Context {T : Type} (compare : T → T → bool) (Hswo : StrictWeakOrder compare).
Implicit Types (c : list T) (i j k : Z).

Lemma spec_candidate_None c i :
  spec_candidate compare c i = None → size c < 2 * i.
Proof.
  unfold spec_candidate. cbv zeta.
  destruct (Z.leb_spec (2 * i + 1) (size c)); [discriminate |].
  destruct (Z.leb_spec (2 * i) (size c)); [discriminate | lia].
Qed.

Lemma spec_candidate_child c i cand :
  spec_candidate compare c i = Some cand →
  (cand = 2 * i ∨ cand = 2 * i + 1) ∧ cand ≤ size c.
Proof.
  unfold spec_candidate. cbv zeta.
  destruct (Z.leb_spec (2 * i + 1) (size c)).
  - destruct (outranks compare c (2 * i) (2 * i + 1)); intros [= <-]; lia.
  - destruct (Z.leb_spec (2 * i) (size c)); [| discriminate].
    intros [= <-]. lia.
Qed.

(** Whatever is not below the candidate is below no child. *)
Lemma spec_candidate_dominates c i cand v b ch y :
  1 ≤ i →
  spec_candidate compare c i = Some cand →
  element_at c cand = Some b →
  ch = 2 * i ∨ ch = 2 * i + 1 →
  element_at c ch = Some y →
  compare v b = false → compare v y = false.
Proof.
  intros Hi Hcand Hb Hch Hy Hvb.
  pose proof (element_at_Some _ _ _ Hy) as Hyb.
  unfold spec_candidate in Hcand. cbv zeta in Hcand.
  destruct (Z.leb_spec (2 * i + 1) (size c)) as [Hr | Hr].
  - destruct (element_at_is_Some c (2 * i)) as [l Hl]; [lia |].
    destruct (element_at_is_Some c (2 * i + 1)) as [r Hrr]; [lia |].
    rewrite (outranks_Some compare c _ _ l r Hl Hrr) in Hcand.
    destruct (compare l r) eqn:Hlr; injection Hcand as <-.
    + (* the candidate is the right child *)
      assert (b = r) as -> by congruence.
      destruct Hch as [-> | ->].
      * assert (y = l) as -> by congruence.
        eapply swo_not_below; eassumption.
      * congruence.
    + (* the candidate is the left child *)
      assert (b = l) as -> by congruence.
      destruct Hch as [-> | ->].
      * congruence.
      * assert (y = r) as -> by congruence.
        eapply swo_negtrans; eassumption.
  - destruct (Z.leb_spec (2 * i) (size c)); [| discriminate].
    injection Hcand as <-.
    destruct Hch as [-> | ->]; [congruence | lia].
Qed.

(** The candidate is below no child. *)
Lemma spec_candidate_maximal c i cand b ch y :
  1 ≤ i →
  spec_candidate compare c i = Some cand →
  element_at c cand = Some b →
  ch = 2 * i ∨ ch = 2 * i + 1 →
  element_at c ch = Some y →
  compare b y = false.
Proof.
  intros Hi Hcand Hb Hch Hy.
  apply (spec_candidate_dominates c i cand b b ch y); auto.
  apply (swo_irrefl compare Hswo).
Qed.

Lemma spec_percolateDown_restores fuel : ∀ c i k,
  1 ≤ k ≤ i →
  (1 ≤ fuel)%nat →
  size c < i * 2 ^ Z.of_nat fuel →
  (∀ j, k ≤ j → j ≠ i → heap_ok_at compare c j = true) →
  (∀ p ch, k ≤ p → i = 2 * p ∨ i = 2 * p + 1 →
           ch = 2 * i ∨ ch = 2 * i + 1 → outranks compare c p ch = false) →
  ∃ c' changed,
    spec_percolateDown compare fuel c i = Ok (c', changed) ∧
    size c' = size c ∧
    c' ≡ₚ c ∧
    ∀ j, k ≤ j → heap_ok_at compare c' j = true.
Proof.
  induction fuel as [| fuel IH]; intros c i k Hk Hfuel Hsize Hrest Hgrand; [lia |].
  simpl spec_percolateDown.
  destruct (spec_candidate compare c i) as [cand |] eqn:Hcand.
  2:{ (* no child *)
    exists c, false. repeat split; auto.
    intros j Hj. destruct (Z.eq_dec j i) as [-> | Hne]; [| auto].
    apply heap_ok_at_leaf; [lia |]. apply spec_candidate_None. exact Hcand. }
  destruct (spec_candidate_child c i cand Hcand) as [Hchild Hin].
  destruct (element_at_is_Some c cand) as [b Hb]; [lia |].
  destruct (outranks compare c i cand) eqn:Hout.
  - (* the candidate outranks the node: exchange and go on *)
    unfold outranks in Hout. rewrite Hb in Hout.
    destruct (element_at c i) as [p |] eqn:Hp; [| discriminate].
    pose proof (element_at_exchange c i cand p b) as Hex.
    specialize (fun m => Hex m Hp Hb).
    destruct (IH (spec_exchange c i cand) cand k) as (c' & changed & Hrun & Hsz & Hperm & Hheap).
    + lia.
    + destruct fuel; [| lia].
      change (2 ^ Z.of_nat 1) with 2 in Hsize. lia.
    + rewrite size_spec_exchange. rewrite Nat2Z.inj_succ, Z.pow_succ_r in Hsize by lia.
      assert (0 < 2 ^ Z.of_nat fuel) by (apply Z.pow_pos_nonneg; lia).
      nia.
    + (* the other nodes *)
      intros j Hj Hne. apply heap_ok_at_iff. intros ch Hch.
      apply outranks_false_iff. intros x y Hx Hy.
      rewrite Hex in Hx, Hy.
      destruct (Z.eqb_spec j cand); [lia |].
      destruct (Z.eqb_spec j i) as [-> | Hji].
      * (* the node itself now holds the candidate's element *)
        injection Hx as <-.
        destruct (Z.eqb_spec ch cand).
        { injection Hy as <-. apply (swo_asym compare Hswo). exact Hout. }
        destruct (Z.eqb_spec ch i); [lia |].
        apply (spec_candidate_maximal c i cand b ch y); auto; lia.
      * destruct (Z.eqb_spec ch cand); [lia |].
        destruct (Z.eqb_spec ch i) as [-> | Hci].
        { (* [j] is the parent of [i] *)
          injection Hy as <-.
          pose proof (Hgrand j cand ltac:(lia) ltac:(lia) Hchild) as Hg.
          apply (proj1 (outranks_false_iff compare c j cand) Hg); assumption. }
        pose proof (Hrest j Hj Hji) as Hok.
        apply (proj1 (outranks_false_iff compare c j ch)
                 (proj1 (heap_ok_at_iff compare c j) Hok ch Hch)); assumption.
    + (* the grandchildren against the element moved up *)
      intros q ch Hq Hpar Hch. assert (q = i) as -> by lia.
      apply outranks_false_iff. intros x y Hx Hy.
      rewrite Hex in Hx, Hy.
      destruct (Z.eqb_spec i cand); [lia |].
      rewrite Z.eqb_refl in Hx. injection Hx as <-.
      destruct (Z.eqb_spec ch cand); [lia |].
      destruct (Z.eqb_spec ch i); [lia |].
      pose proof (Hrest cand ltac:(lia) ltac:(lia)) as Hok.
      apply (proj1 (outranks_false_iff compare c cand ch)
               (proj1 (heap_ok_at_iff compare c cand) Hok ch Hch)); assumption.
    + exists c', true. rewrite Hrun. simpl.
      rewrite size_spec_exchange in Hsz.
      repeat split; auto.
      rewrite Hperm. apply spec_exchange_Permutation.
  - (* the node is in order *)
    exists c, false. repeat split; auto.
    intros j Hj. destruct (Z.eq_dec j i) as [-> | Hne]; [| auto].
    apply heap_ok_at_iff. intros ch Hch.
    apply outranks_false_iff. intros x y Hx Hy.
    apply (spec_candidate_dominates c i cand x b ch y); auto; [lia |].
    apply (proj1 (outranks_false_iff compare c i cand) Hout); assumption.
Qed.

End Sift.

(** ** Every access of the downward restoration is within the storage *)

Section Safety.
Context {T : Type} (compare : T → T → bool).
Implicit Types (c : list T) (i j k : Z).

Lemma spec_percolateDown_returns fuel : ∀ c i,
  1 ≤ i →
  (1 ≤ fuel)%nat →
  size c < i * 2 ^ Z.of_nat fuel →
  ∃ c' changed,
    spec_percolateDown compare fuel c i = Ok (c', changed) ∧ size c' = size c.
Proof.
  induction fuel as [| fuel IH]; intros c i Hi Hfuel Hsize; [lia |].
  simpl spec_percolateDown.
  destruct (spec_candidate compare c i) as [cand |] eqn:Hcand; [| eauto].
  destruct (spec_candidate_child compare c i cand Hcand) as [Hchild Hin].
  destruct (outranks compare c i cand); [| eauto].
  destruct (IH (spec_exchange c i cand) cand) as (c' & changed & Hrun & Hsz).
  - lia.
  - destruct fuel; [| lia].
    change (2 ^ Z.of_nat 1) with 2 in Hsize. lia.
  - rewrite size_spec_exchange. rewrite Nat2Z.inj_succ, Z.pow_succ_r in Hsize by lia.
    assert (0 < 2 ^ Z.of_nat fuel) by (apply Z.pow_pos_nonneg; lia).
    nia.
  - exists c', true. rewrite Hrun. simpl.
    rewrite size_spec_exchange in Hsz. auto.
Qed.

Lemma height_enough c i : 1 ≤ i → size c < i * 2 ^ Z.of_nat (height c).
Proof.
  intros Hi. pose proof (height_bound c) as Hb.
  unfold size in *. nia.
Qed.

Lemma percolateDown_refines c i :
  size c ≤ PTRDIFF_MAX → 1 ≤ i ≤ PTRDIFF_MAX →
  PQ.percolateDown compare c i = spec_percolateDown compare (height c) c i.
Proof. intros Hc Hi. apply percolateDown_fuel_refines; assumption. Qed.

Lemma percolateDown_returns c i :
  size c ≤ PTRDIFF_MAX → 1 ≤ i ≤ PTRDIFF_MAX →
  ∃ c' changed,
    PQ.percolateDown compare c i = Ok (c', changed) ∧ size c' = size c.
Proof.
  intros Hc Hi. rewrite percolateDown_refines by assumption.
  apply spec_percolateDown_returns; [lia | apply height_pos |].
  apply height_enough. lia.
Qed.

Lemma foldl_step {A B : Type} (f : A → B → A) (acc : A) (x : B) (l : list B) :
  foldl f acc (x :: l) = foldl f (f acc x) l.
Proof. reflexivity. Qed.

Lemma spec_restore_at_Ok c i :
  spec_restore_at compare (Ok c) i =
  '(c', _) ← spec_percolateDown compare (height c) c i; Ok c'.
Proof. reflexivity. Qed.

Lemma heapify_loop_refines n : ∀ c,
  Z.of_nat n ≤ INT_MAX → size c ≤ PTRDIFF_MAX →
  PQ.heapify_loop compare n c =
  foldl (spec_restore_at compare) (Ok c) (map Z.of_nat (rev (seq 1 n))).
Proof.
  induction n as [| n IH]; intros c Hn Hc; [reflexivity |].
  rewrite seq_S, rev_app_distr. simpl rev. simpl map.
  rewrite foldl_step, spec_restore_at_Ok.
  simpl PQ.heapify_loop.
  destruct (Z.ltb_spec (Z.of_nat n) INT_MAX) as [Hlt | Hge]; [| lia].
  assert (Hidx : wrap_size_t (Z.of_nat n + 1) = Z.of_nat (S n)).
  { rewrite wrap_size_t_small; unfold INT_MAX in *; lia. }
  rewrite Hidx.
  assert (Hi : 1 ≤ Z.of_nat (S n) ≤ PTRDIFF_MAX)
    by (unfold INT_MAX, PTRDIFF_MAX in *; lia).
  rewrite <- (percolateDown_refines c _ Hc Hi).
  destruct (percolateDown_returns c _ Hc Hi) as (c' & changed & Hrun & Hsz).
  rewrite Hrun. simpl. apply IH; lia.
Qed.

Lemma heapify_refines c :
  size c ≤ INT_MAX → PQ.heapify compare c = spec_heapify compare c.
Proof.
  intros Hc. unfold PQ.heapify, spec_heapify, midpoint_down. cbv zeta.
  assert (Hhalf : 0 ≤ size c / 2 ≤ INT_MAX).
  { unfold size, INT_MAX in *. split; [apply Z.div_pos; lia |].
    apply Z.div_le_upper_bound; lia. }
  rewrite to_int_small by exact Hhalf.
  destruct (Z.leb_spec 0 (size c / 2)); [| lia].
  apply heapify_loop_refines.
  - assert (size c / 2 < INT_MAX); [| lia].
    unfold size, INT_MAX in *. apply Z.div_lt_upper_bound; lia.
  - unfold INT_MAX, PTRDIFF_MAX in *. lia.
Qed.

End Safety.

(** ** [heapify], [pop] and the heap invariant in [part_000] *)

Section Correct.
Context {T : Type} (compare : T → T → bool) (Hswo : StrictWeakOrder compare).
Implicit Types (c : list T) (i j k : Z).

Lemma percolateDown_restores c i k :
  size c ≤ PTRDIFF_MAX →
  1 ≤ k ≤ i → i ≤ PTRDIFF_MAX →
  (∀ j, k ≤ j → j ≠ i → heap_ok_at compare c j = true) →
  (∀ p ch, k ≤ p → i = 2 * p ∨ i = 2 * p + 1 →
           ch = 2 * i ∨ ch = 2 * i + 1 → outranks compare c p ch = false) →
  ∃ c' changed,
    PQ.percolateDown compare c i = Ok (c', changed) ∧
    size c' = size c ∧
    c' ≡ₚ c ∧
    ∀ j, k ≤ j → heap_ok_at compare c' j = true.
Proof.
  intros Hc Hk Hi Hrest Hgrand.
  rewrite percolateDown_refines by (auto; lia).
  apply (spec_percolateDown_restores compare Hswo); auto.
  - apply height_pos.
  - apply height_enough. lia.
Qed.

Lemma heapify_loop_restores n : ∀ c,
  Z.of_nat n ≤ INT_MAX → size c ≤ PTRDIFF_MAX →
  (∀ j, Z.of_nat n < j → heap_ok_at compare c j = true) →
  ∃ c',
    PQ.heapify_loop compare n c = Ok c' ∧
    size c' = size c ∧ c' ≡ₚ c ∧ is_heap compare c'.
Proof.
  induction n as [| n IH]; intros c Hn Hc Hdone.
  - exists c. repeat split; auto. intros j Hj. apply Hdone. lia.
  - simpl PQ.heapify_loop.
    destruct (Z.ltb_spec (Z.of_nat n) INT_MAX) as [Hlt | Hge]; [| lia].
    assert (Hidx : wrap_size_t (Z.of_nat n + 1) = Z.of_nat (S n)).
    { rewrite wrap_size_t_small; unfold INT_MAX in *; lia. }
    rewrite Hidx.
    destruct (percolateDown_restores c (Z.of_nat (S n)) (Z.of_nat (S n)))
      as (c1 & changed & Hrun & Hsz & Hperm & Hheap).
    + exact Hc.
    + lia.
    + unfold INT_MAX, PTRDIFF_MAX in *. lia.
    + intros j Hj Hne. apply Hdone. lia.
    + intros p ch Hp Hpar. lia.
    + rewrite Hrun. simpl.
      destruct (IH c1) as (c' & Hrun' & Hsz' & Hperm' & Hheap').
      * lia.
      * lia.
      * intros j Hj. apply Hheap. lia.
      * exists c'. repeat split; auto; [lia |].
        rewrite Hperm'. exact Hperm.
Qed.

Lemma heapify_restores c :
  size c ≤ INT_MAX →
  ∃ c',
    PQ.heapify compare c = Ok c' ∧
    size c' = size c ∧ c' ≡ₚ c ∧ is_heap compare c'.
Proof.
  intros Hc. unfold PQ.heapify. cbv zeta.
  assert (Hhalf : 0 ≤ size c / 2 < INT_MAX).
  { unfold size, INT_MAX in *. split; [apply Z.div_pos; lia |].
    apply Z.div_lt_upper_bound; lia. }
  rewrite to_int_small by lia.
  destruct (Z.leb_spec 0 (size c / 2)); [| lia].
  apply heapify_loop_restores.
  - lia.
  - unfold INT_MAX, PTRDIFF_MAX in *. lia.
  - intros j Hj. apply heap_ok_at_leaf; [lia |].
    rewrite Z2Nat.id in Hj by lia.
    pose proof (Z.mul_div_le (size c) 2 ltac:(lia)).
    pose proof (Z.mod_pos_bound (size c) 2 ltac:(lia)).
    pose proof (Z.div_mod (size c) 2 ltac:(lia)). lia.
Qed.

(** On a heap the downward restoration changes nothing. *)
Lemma spec_percolateDown_heap_noop fuel c i :
  (1 ≤ fuel)%nat → heap_ok_at compare c i = true →
  spec_percolateDown compare fuel c i = Ok (c, false).
Proof.
  intros Hfuel Hok. destruct fuel as [| fuel]; [lia |].
  simpl spec_percolateDown.
  destruct (spec_candidate compare c i) as [cand |] eqn:Hcand; [| reflexivity].
  destruct (spec_candidate_child compare c i cand Hcand) as [Hchild _].
  rewrite (proj1 (heap_ok_at_iff compare c i) Hok cand Hchild). reflexivity.
Qed.

Lemma heapify_loop_heap_noop n : ∀ c,
  Z.of_nat n ≤ INT_MAX → size c ≤ PTRDIFF_MAX →
  is_heap compare c →
  PQ.heapify_loop compare n c = Ok c.
Proof.
  induction n as [| n IH]; intros c Hn Hc Hheap; [reflexivity |].
  simpl PQ.heapify_loop.
  destruct (Z.ltb_spec (Z.of_nat n) INT_MAX) as [Hlt | Hge]; [| lia].
  rewrite wrap_size_t_small by (unfold INT_MAX in *; lia).
  rewrite percolateDown_refines
    by (unfold INT_MAX, PTRDIFF_MAX in *; lia).
  rewrite spec_percolateDown_heap_noop; [| apply height_pos | apply Hheap; lia].
  simpl. apply IH; auto. lia.
Qed.

Lemma element_at_take c (n : nat) j :
  element_at (take n c) j = if j <=? Z.of_nat n then element_at c j else None.
Proof.
  unfold element_at. destruct (Z.ltb_spec j 1).
  - destruct (j <=? Z.of_nat n); reflexivity.
  - destruct (Z.leb_spec j (Z.of_nat n)).
    + apply lookup_take_lt. lia.
    + apply lookup_take_ge. lia.
Qed.

Lemma pop_back_take c :
  1 ≤ size c → pop_back c = Ok (take (length c - 1)%nat c).
Proof.
  intros H. destruct c as [| h t]; [| reflexivity].
  unfold size in H. simpl in H. lia.
Qed.

Lemma pop_restores c :
  1 ≤ size c → size c ≤ PTRDIFF_MAX →
  is_heap compare c →
  ∃ c' root,
    PQ.pop compare c = Ok c' ∧
    PQ.pop compare c =
      ('(c3, _) ← PQ.percolateDown compare
                    (take (length c - 1)%nat (spec_exchange c 1 (size c))) 1;
       Ok c3) ∧
    size c' = size c - 1 ∧
    element_at c 1 = Some root ∧
    root :: c' ≡ₚ c ∧
    is_heap compare c'.
Proof.
  intros Hne Hc Hheap.
  destruct (element_at_is_Some c 1) as [root Hroot]; [lia |].
  destruct (element_at_is_Some c (size c)) as [lst Hlst]; [lia |].
  pose proof (element_at_exchange c 1 (size c) root lst) as Hex.
  specialize (fun m => Hex m Hroot Hlst).
  set (c1 := spec_exchange c 1 (size c)) in *.
  assert (Hsz1 : size c1 = size c) by apply size_spec_exchange.
  set (c2 := take (length c - 1)%nat c1).
  assert (Hsz2 : size c2 = size c - 1).
  { unfold c2, size in *. rewrite length_take. lia. }
  assert (Hstep : PQ.pop compare c =
    ('(c3, _) ← PQ.percolateDown compare c2 1; Ok c3)).
  { unfold PQ.pop, empty.
    destruct (Z.eqb_spec (size c) 0); [lia |]. simpl negb. cbv iota.
    rewrite wrap_size_t_small by (unfold PTRDIFF_MAX in *; lia).
    change 0 with (1 - 1) at 1.
    rewrite (swap_at_exchange c 1 (size c) root lst Hroot Hlst).
    rewrite bind_Ok. fold c1.
    rewrite (pop_back_take c1) by lia.
    rewrite bind_Ok.
    replace (length c1 - 1)%nat with (length c - 1)%nat
      by (unfold size in Hsz1; lia).
    reflexivity. }
  destruct (percolateDown_restores c2 1 1) as (c' & changed & Hrun & Hsz & Hperm & Hok).
  - lia.
  - lia.
  - unfold PTRDIFF_MAX. lia.
  - (* below the root the heap is untouched *)
    intros j Hj Hj1. apply heap_ok_at_iff. intros ch Hch.
    apply outranks_false_iff. intros x y Hx Hy.
    pose proof (element_at_Some _ _ _ Hx). pose proof (element_at_Some _ _ _ Hy).
    unfold c2 in Hx, Hy. rewrite element_at_take in Hx, Hy.
    destruct (Z.leb_spec j (Z.of_nat (length c - 1))); [| discriminate].
    destruct (Z.leb_spec ch (Z.of_nat (length c - 1))); [| discriminate].
    rewrite Hex in Hx, Hy.
    destruct (Z.eqb_spec j (size c)); [lia |].
    destruct (Z.eqb_spec j 1); [lia |].
    destruct (Z.eqb_spec ch (size c)); [lia |].
    destruct (Z.eqb_spec ch 1); [lia |].
    pose proof (Hheap j ltac:(lia)) as Hokj.
    apply (proj1 (outranks_false_iff compare c j ch)
             (proj1 (heap_ok_at_iff compare c j) Hokj ch Hch)); assumption.
  - intros p ch Hp Hpar. lia.
  - exists c', root. rewrite Hstep. fold c1. fold c2. rewrite Hrun. simpl.
    split; [reflexivity |]. split; [reflexivity |].
    split; [lia |]. split; [exact Hroot |]. split.
    + rewrite Hperm.
      assert (Hlast : c1 !! (length c - 1)%nat = Some root).
      { pose proof (Hex (size c)) as Hs. rewrite Z.eqb_refl in Hs.
        rewrite element_at_lookup in Hs by lia.
        replace (Z.to_nat (size c - 1)) with (length c - 1)%nat in Hs
          by (unfold size; lia).
        exact Hs. }
      assert (Hsplit : c1 = c2 ++ [root]).
      { unfold c2. rewrite <- (take_S_r c1 (length c - 1) root Hlast).
        symmetry. apply take_ge. unfold size in *. lia. }
      transitivity c1; [| apply spec_exchange_Permutation].
      rewrite Hsplit. apply Permutation_cons_append.
    + intros j Hj. apply Hok. lia.
Qed.

End Correct.

(** ** Termination of [percolateDown] *)

Section Termination.
Context {T : Type}.
Implicit Types (c : list T) (i j k : Z) (f : T → T → bool).

Lemma index_not_NoFuel c i : index c i ≠ NoFuel.
Proof.
  unfold index. destruct ((0 <=? i) && (i <? size c)); [| discriminate].
  destruct (c !! Z.to_nat i); discriminate.
Qed.

Lemma compare_at_not_NoFuel f c a b :
  (l ← index c a; r ← index c b; Ok (f l r)) ≠ NoFuel.
Proof.
  apply bind_not_NoFuel; [apply index_not_NoFuel |]. intros l.
  apply bind_not_NoFuel; [apply index_not_NoFuel |]. intros r. discriminate.
Qed.

Lemma compare_at_out f c a b :
  ¬ (0 ≤ a < size c) → (l ← index c a; r ← index c b; Ok (f l r)) = Undefined.
Proof. intros H. rewrite (index_out c a H). reflexivity. Qed.

Lemma swap_at_not_NoFuel c a b : swap_at c a b ≠ NoFuel.
Proof.
  unfold swap_at.
  apply bind_not_NoFuel; [apply index_not_NoFuel |]. intros l.
  apply bind_not_NoFuel; [apply index_not_NoFuel |]. intros r. discriminate.
Qed.

Lemma swap_at_size c a b c1 : swap_at c a b = Ok c1 → size c1 = size c.
Proof.
  unfold swap_at.
  destruct (index c a) as [x | | |]; try discriminate.
  destruct (index c b) as [y | | |]; try discriminate.
  simpl. intros [= <-]. rewrite !size_insert. reflexivity.
Qed.

Lemma fuel_descends (fuel : nat) i b s :
  1 ≤ i → 2 * i ≤ b → b ≤ s →
  s < i * 2 ^ Z.of_nat (S fuel) →
  (1 ≤ fuel)%nat ∧ s < b * 2 ^ Z.of_nat fuel.
Proof.
  intros Hi Hb Hs Hlt. split.
  - destruct fuel; [| lia]. change (2 ^ Z.of_nat 1) with 2 in Hlt. lia.
  - rewrite Nat2Z.inj_succ, Z.pow_succ_r in Hlt by lia.
    assert (0 < 2 ^ Z.of_nat fuel) by (apply Z.pow_pos_nonneg; lia).
    nia.
Qed.

(** [part_000]: an index past the storage ends the call at once. *)
Lemma percolateDown_fuel_beyond f fuel c i :
  size c < i < 2 ^ 64 →
  PQ.percolateDown_fuel f (S fuel) c i ≠ NoFuel.
Proof.
  intros Hi. rewrite percolateDown_fuel_unfold. cbv zeta.
  set (L := wrap_size_t (2 * i)). set (R := wrap_size_t (L + 1)).
  assert (Hout : ¬ (0 ≤ wrap_size_t (i - 1) < size c)).
  { unfold size in *. rewrite wrap_size_t_small; lia. }
  destruct (if R <=? size c
            then l ← index c (wrap_size_t (L - 1));
                 r ← index c (wrap_size_t (R - 1)); Ok (f l r)
            else Ok false) as [pick | | |] eqn:Hfirst; try discriminate.
  - rewrite bind_Ok.
    destruct ((if pick then R else L) <=? size c).
    + rewrite (compare_at_out f c _ _ Hout). discriminate.
    + discriminate.
  - destruct (R <=? size c); [| discriminate].
    destruct (compare_at_not_NoFuel f c _ _ Hfirst).
Qed.

Lemma percolateDown_fuel_terminates f fuel c i :
  size c ≤ PTRDIFF_MAX → 1 ≤ i < 2 ^ 64 →
  (1 ≤ fuel)%nat → size c < i * 2 ^ Z.of_nat fuel →
  PQ.percolateDown_fuel f fuel c i ≠ NoFuel.
Proof.
  intros Hc Hi Hfuel Hsize.
  destruct (Z.le_gt_cases i (size c)) as [Hin | Hout].
  - rewrite percolateDown_fuel_refines by lia.
    destruct (spec_percolateDown_returns f fuel c i) as (c' & ch & -> & _);
      [lia | lia | lia | discriminate].
  - destruct fuel; [lia |]. apply percolateDown_fuel_beyond. lia.
Qed.

Lemma stub_percolateDown_fuel_unfold f fuel c i :
  PQStub.percolateDown_fuel f (S fuel) c i =
    let indexLeft := wrap_size_t (i * 2) in
    let indexRight := wrap_size_t (indexLeft + 1) in
    if (indexRight <=? size c) && (indexLeft <=? size c) then
      pickRight ←
        (if indexRight <=? size c then
           l ← index c (wrap_size_t (indexLeft - 1));
           r ← index c (wrap_size_t (indexRight - 1));
           Ok (f l r)
         else Ok false);
      let indexBigger := if pickRight : bool then indexRight else indexLeft in
      p ← index c (wrap_size_t (i - 1));
      b ← index c (wrap_size_t (indexBigger - 1));
      if f p b then
        c1 ← swap_at c (wrap_size_t (i - 1)) (wrap_size_t (indexBigger - 1));
        '(c2, _) ← PQStub.percolateDown_fuel f fuel c1 indexBigger;
        Ok (c2, true)
      else Ok (c, false)
    else Ok (c, false).
Proof. reflexivity. Qed.

Lemma stub_percolateDown_fuel_terminates f fuel : ∀ c i,
  size c ≤ PTRDIFF_MAX → 1 ≤ i < 2 ^ 64 →
  (1 ≤ fuel)%nat → size c < i * 2 ^ Z.of_nat fuel →
  PQStub.percolateDown_fuel f fuel c i ≠ NoFuel.
Proof.
  induction fuel as [| fuel IH]; intros c i Hc Hi Hfuel Hsize; [lia |].
  rewrite stub_percolateDown_fuel_unfold. cbv zeta.
  destruct (Z.le_gt_cases i (size c)) as [Hin | Hout].
  - (* a node of the heap: the index arithmetic does not wrap *)
    assert (HL : wrap_size_t (i * 2) = 2 * i)
      by (rewrite wrap_size_t_small; unfold PTRDIFF_MAX in *; lia).
    rewrite HL.
    assert (HR : wrap_size_t (2 * i + 1) = 2 * i + 1)
      by (rewrite wrap_size_t_small; unfold PTRDIFF_MAX in *; lia).
    rewrite HR.
    destruct (Z.leb_spec (2 * i + 1) (size c)) as [Hr | Hr]; [| discriminate].
    destruct (Z.leb_spec (2 * i) (size c)) as [Hl | Hl]; [| discriminate].
    simpl andb. cbv iota.
    destruct (l ← index c (wrap_size_t (2 * i - 1));
              r ← index c (wrap_size_t (2 * i + 1 - 1)); Ok (f l r))
      as [pick | | |] eqn:Hfirst; try discriminate.
    2:{ destruct (compare_at_not_NoFuel f c _ _ Hfirst). }
    rewrite bind_Ok.
    set (B := if pick then 2 * i + 1 else 2 * i).
    assert (HB : 2 * i ≤ B ≤ size c) by (unfold B; destruct pick; lia).
    destruct (index c (wrap_size_t (i - 1))) as [p | | |] eqn:Hp; try discriminate.
    2:{ destruct (index_not_NoFuel c _ Hp). }
    rewrite bind_Ok.
    destruct (index c (wrap_size_t (B - 1))) as [b | | |] eqn:Hb; try discriminate.
    2:{ destruct (index_not_NoFuel c _ Hb). }
    rewrite bind_Ok.
    destruct (f p b); [| discriminate].
    destruct (swap_at c (wrap_size_t (i - 1)) (wrap_size_t (B - 1)))
      as [c1 | | |] eqn:Hswap; try discriminate.
    2:{ destruct (swap_at_not_NoFuel c _ _ Hswap). }
    rewrite bind_Ok.
    pose proof (swap_at_size c _ _ c1 Hswap) as Hsz1.
    destruct (fuel_descends fuel i B (size c)) as [Hf1 Hf2]; [lia | lia | lia | exact Hsize |].
    apply bind_not_NoFuel.
    + apply IH; unfold PTRDIFF_MAX in *; lia.
    + intros [c2 ch]. discriminate.
  - (* past the storage *)
    destruct ((wrap_size_t (wrap_size_t (i * 2) + 1) <=? size c)
              && (wrap_size_t (i * 2) <=? size c)); [| discriminate].
    assert (Hundef : index c (wrap_size_t (i - 1)) = Undefined).
    { apply index_out. rewrite wrap_size_t_small; lia. }
    match goal with
    | |- (?first ≫= _) ≠ NoFuel =>
      destruct first as [pick | | |] eqn:Hfirst; try discriminate
    end.
    + rewrite bind_Ok. rewrite Hundef. discriminate.
    + destruct (wrap_size_t (wrap_size_t (i * 2) + 1) <=? size c); [| discriminate].
      destruct (compare_at_not_NoFuel f c _ _ Hfirst).
Qed.

End Termination.

(** ** The result does not depend on a sufficient recursion budget *)

Section FuelIndependence.
Context {T : Type}.
Implicit Types (c : list T) (i : Z) (f : T → T → bool).

Lemma bind_NoFuel_inv {A B : Type} (m : outcome A) (g : A → outcome B) :
  (∀ a, g a ≠ NoFuel) → (m ≫= g) ≠ NoFuel → m ≠ NoFuel.
Proof. intros Hg H ->. apply H. reflexivity. Qed.

Lemma percolateDown_fuel_S f fuel : ∀ c i,
  PQ.percolateDown_fuel f fuel c i ≠ NoFuel →
  PQ.percolateDown_fuel f (S fuel) c i = PQ.percolateDown_fuel f fuel c i.
Proof.
  induction fuel as [| fuel IH]; intros c i Hrun; [destruct Hrun; reflexivity |].
  rewrite (percolateDown_fuel_unfold f (S fuel)).
  rewrite (percolateDown_fuel_unfold f fuel) in Hrun |- *.
  cbv zeta in *.
  match goal with
  | |- (?first ≫= _) = _ => destruct first as [pick | | |]; try reflexivity
  end.
  rewrite !bind_Ok in *.
  match goal with
  | |- (?second ≫= _) = _ => destruct second as [doSwap | | |]; try reflexivity
  end.
  rewrite !bind_Ok in *.
  destruct doSwap; [| reflexivity].
  match goal with
  | |- (?sw ≫= _) = _ => destruct sw as [c1 | | |]; try reflexivity
  end.
  rewrite !bind_Ok in *.
  rewrite IH; [reflexivity |].
  refine (bind_NoFuel_inv _ _ _ Hrun). intros [c2 ch]. discriminate.
Qed.

Lemma percolateDown_fuel_le f (fuel fuel' : nat) c i :
  (fuel ≤ fuel')%nat →
  PQ.percolateDown_fuel f fuel c i ≠ NoFuel →
  PQ.percolateDown_fuel f fuel' c i = PQ.percolateDown_fuel f fuel c i.
Proof.
  intros Hle Hrun. induction Hle as [| fuel' Hle IH]; [reflexivity |].
  rewrite percolateDown_fuel_S; [exact IH |]. rewrite IH. exact Hrun.
Qed.

Lemma stub_percolateDown_fuel_S f fuel : ∀ c i,
  PQStub.percolateDown_fuel f fuel c i ≠ NoFuel →
  PQStub.percolateDown_fuel f (S fuel) c i = PQStub.percolateDown_fuel f fuel c i.
Proof.
  induction fuel as [| fuel IH]; intros c i Hrun; [destruct Hrun; reflexivity |].
  rewrite (stub_percolateDown_fuel_unfold f (S fuel)).
  rewrite (stub_percolateDown_fuel_unfold f fuel) in Hrun |- *.
  cbv zeta in *.
  match goal with
  | |- (if ?both then _ else _) = _ => destruct both; [| reflexivity]
  end.
  match goal with
  | |- (?first ≫= _) = _ => destruct first as [pick | | |]; try reflexivity
  end.
  rewrite !bind_Ok in *.
  match goal with
  | |- (?ip ≫= _) = _ => destruct ip as [p | | |]; try reflexivity
  end.
  rewrite !bind_Ok in *.
  match goal with
  | |- (?ib ≫= _) = _ => destruct ib as [b | | |]; try reflexivity
  end.
  rewrite !bind_Ok in *.
  destruct (f p b); [| reflexivity].
  match goal with
  | |- (?sw ≫= _) = _ => destruct sw as [c1 | | |]; try reflexivity
  end.
  rewrite !bind_Ok in *.
  rewrite IH; [reflexivity |].
  refine (bind_NoFuel_inv _ _ _ Hrun). intros [c2 ch]. discriminate.
Qed.

Lemma stub_percolateDown_fuel_le f (fuel fuel' : nat) c i :
  (fuel ≤ fuel')%nat →
  PQStub.percolateDown_fuel f fuel c i ≠ NoFuel →
  PQStub.percolateDown_fuel f fuel' c i = PQStub.percolateDown_fuel f fuel c i.
Proof.
  intros Hle Hrun. induction Hle as [| fuel' Hle IH]; [reflexivity |].
  rewrite stub_percolateDown_fuel_S; [exact IH |]. rewrite IH. exact Hrun.
Qed.

End FuelIndependence.

(** ** [heapify] and [push] return, whatever the comparator *)

Section Returns.
Context {T : Type} (compare : T → T → bool).
Implicit Types (c : list T) (i : Z).

Lemma heapify_loop_returns n : ∀ c,
  Z.of_nat n ≤ INT_MAX → size c ≤ PTRDIFF_MAX →
  ∃ c', PQ.heapify_loop compare n c = Ok c' ∧ size c' = size c.
Proof.
  induction n as [| n IH]; intros c Hn Hc; [eauto |].
  simpl PQ.heapify_loop.
  destruct (Z.ltb_spec (Z.of_nat n) INT_MAX) as [Hlt | Hge]; [| lia].
  rewrite wrap_size_t_small by (unfold INT_MAX in *; lia).
  destruct (percolateDown_returns compare c (Z.of_nat n + 1))
    as (c1 & ch & Hrun & Hsz);
    [exact Hc | unfold INT_MAX, PTRDIFF_MAX in *; lia |].
  rewrite Hrun. simpl.
  destruct (IH c1) as (c' & Hrun' & Hsz'); [lia | lia |].
  exists c'. split; [exact Hrun' | lia].
Qed.

Lemma heapify_returns c :
  size c ≤ INT_MAX →
  ∃ c', PQ.heapify compare c = Ok c' ∧ size c' = size c.
Proof.
  intros Hc. unfold PQ.heapify. cbv zeta.
  assert (Hhalf : 0 ≤ size c / 2 < INT_MAX).
  { unfold size, INT_MAX in *. split; [apply Z.div_pos; lia |].
    apply Z.div_lt_upper_bound; lia. }
  rewrite to_int_small by lia.
  destruct (Z.leb_spec 0 (size c / 2)); [| lia].
  apply heapify_loop_returns; unfold INT_MAX, PTRDIFF_MAX in *; lia.
Qed.

Lemma midpoint_down_range c i :
  In i (midpoint_down c) → 1 ≤ i ≤ size c / 2 + 1.
Proof.
  unfold midpoint_down. rewrite in_map_iff. intros (n & <- & Hn).
  apply in_rev, in_seq in Hn.
  assert (0 ≤ size c / 2) by (unfold size; apply Z.div_pos; lia).
  lia.
Qed.

Lemma push_walk_returns (f : nat) : ∀ c i,
  size c ≤ PTRDIFF_MAX → 0 ≤ i < 2 ^ Z.of_nat f → i ≤ PTRDIFF_MAX →
  ∃ c', PQ.push_walk compare (S f) c i = Ok c' ∧ size c' = size c.
Proof.
  induction f as [| f IH]; intros c i Hc Hi Hmax.
  - change (2 ^ Z.of_nat 0) with 1 in Hi. assert (i = 0) as -> by lia.
    simpl. eauto.
  - change (PQ.push_walk compare (S (S f)) c i) with
      (if 0 <? i then
         '(c1, changed) ← PQ.percolateDown compare c i;
         if changed : bool then PQ.push_walk compare (S f) c1 (i / 2) else Ok c1
       else Ok c).
    destruct (Z.ltb_spec 0 i) as [Hpos | Hzero]; [| eauto].
    destruct (percolateDown_returns compare c i) as (c1 & ch & Hrun & Hsz);
      [exact Hc | lia |].
    rewrite Hrun. simpl. destruct ch; [| eauto].
    destruct (IH c1 (i / 2)) as (c' & Hrun' & Hsz').
    + lia.
    + split; [apply Z.div_pos; lia |].
      apply Z.div_lt_upper_bound; [lia |].
      rewrite Nat2Z.inj_succ, Z.pow_succ_r in Hi by lia. lia.
    + pose proof (Z.div_le_upper_bound i 2 i ltac:(lia) ltac:(lia)). lia.
    + exists c'. split; [exact Hrun' | lia].
Qed.

Lemma size_push_back c t : size (push_back c t) = size c + 1.
Proof. unfold size, push_back. rewrite length_app. simpl. lia. Qed.

Lemma push_returns c t :
  size c < PTRDIFF_MAX →
  ∃ c', PQ.push compare c t = Ok c' ∧ size c' = size c + 1.
Proof.
  intros Hc. unfold PQ.push. cbv zeta.
  pose proof (size_push_back c t) as Hsz.
  assert (Hstart : 0 ≤ PQ.push_start (push_back c t) ≤ size c + 1).
  { unfold PQ.push_start. rewrite wrap_size_t_small
      by (unfold size, PTRDIFF_MAX in *; lia).
    rewrite Hsz. split; [apply Z.div_pos; unfold size; lia |].
    apply Z.div_le_upper_bound; unfold size; lia. }
  destruct (push_walk_returns 64 (push_back c t) (PQ.push_start (push_back c t)))
    as (c' & Hrun & Hsz').
  - lia.
  - unfold PTRDIFF_MAX in *. change (Z.of_nat 64) with 64. lia.
  - lia.
  - exists c'. split; [exact Hrun | lia].
Qed.

End Returns.

(** * The claims *)

(** C1.  [push] on a heap, in [part_000]: the element is appended and the
    size grows by exactly one, for both overloads; but the heap invariant is
    not restored when the new size is odd: pushing [3] on the heap [2; 1]
    leaves [2; 1; 3], where the new leaf outranks the root.  In
    [priority_queue.h] the [push_back] is commented out, so the size does not
    change at all. *)
Theorem push_grows_but_loses_heap_order
  {T : Type} (compare : T → T → bool) (c : list T) (t : T) :
  size c < PTRDIFF_MAX →
  (∃ c', PQ.push compare c t = Ok c' ∧
         PQ.push_move compare c t = Ok c' ∧
         size c' = size c + 1) ∧
  (is_heap Z.ltb [2; 1] ∧
   PQ.push Z.ltb [2; 1] 3 = Ok [2; 1; 3] ∧
   PQ.push_move Z.ltb [2; 1] 3 = Ok [2; 1; 3] ∧
   ¬ is_heap Z.ltb [2; 1; 3]) ∧
  (PQStub.push Z.ltb [2; 1] 3 = Ok [2; 1] ∧
   PQStub.push_move Z.ltb [2; 1] 3 = Ok [2; 1]).
Proof.
  intros Hc. split; [| split].
  - destruct (push_returns compare c t Hc) as (c' & Hrun & Hsz).
    exists c'. repeat split; assumption.
  - split; [apply is_heapb_is_heap; vm_compute; reflexivity |].
    split; [vm_compute; reflexivity |].
    split; [vm_compute; reflexivity |].
    rewrite <- is_heapb_is_heap. vm_compute. discriminate.
  - split; vm_compute; reflexivity.
Qed.

Lemma push_grows_but_loses_heap_order_witness :
  size [2; 1] < PTRDIFF_MAX ∧
  ∃ c', PQ.push Z.ltb [2; 1] 3 = Ok c' ∧ size c' = size [2; 1] + 1.
Proof.
  assert (H : size [2; 1] < PTRDIFF_MAX) by (vm_compute; reflexivity).
  split; [exact H |].
  destruct (push_grows_but_loses_heap_order Z.ltb [2; 1] 3 H)
    as [(c' & Hrun & _ & Hsz) _].
  exists c'. split; assumption.
Defined.

(** C2.  [pop] on a non-empty heap, in [part_000]: the root is exchanged
    with the last element, the last slot is removed, the new root is
    percolated down; the size decreases by exactly one, the removed element
    is the old root and the heap invariant holds again.  In
    [priority_queue.h] the body of [pop] is commented out: the container is
    returned as it was. *)
Theorem pop_removes_root_and_restores_heap
  {T : Type} (compare : T → T → bool) (c : list T) :
  StrictWeakOrder compare →
  1 ≤ size c → size c ≤ PTRDIFF_MAX →
  is_heap compare c →
  (∃ c' root,
     PQ.pop compare c = Ok c' ∧
     PQ.pop compare c =
       ('(c3, _) ← PQ.percolateDown compare
                     (take (length c - 1)%nat (spec_exchange c 1 (size c))) 1;
        Ok c3) ∧
     size c' = size c - 1 ∧
     element_at c 1 = Some root ∧
     root :: c' ≡ₚ c ∧
     is_heap compare c') ∧
  PQStub.pop c = Ok c.
Proof.
  intros Hswo Hne Hc Hheap. split; [| reflexivity].
  apply pop_restores; assumption.
Qed.

Lemma pop_removes_root_and_restores_heap_witness :
  StrictWeakOrder Z.ltb ∧
  1 ≤ size [9; 7; 5; 3; 1] ∧ size [9; 7; 5; 3; 1] ≤ PTRDIFF_MAX ∧
  is_heap Z.ltb [9; 7; 5; 3; 1] ∧
  ∃ c', PQ.pop Z.ltb [9; 7; 5; 3; 1] = Ok c' ∧ is_heap Z.ltb c'.
Proof.
  assert (H1 : 1 ≤ size [9; 7; 5; 3; 1]) by (vm_compute; discriminate).
  assert (H2 : size [9; 7; 5; 3; 1] ≤ PTRDIFF_MAX) by (vm_compute; discriminate).
  assert (H3 : is_heap Z.ltb [9; 7; 5; 3; 1])
    by (apply is_heapb_is_heap; vm_compute; reflexivity).
  repeat split; try assumption; try apply Zltb_StrictWeakOrder.
  destruct (pop_removes_root_and_restores_heap Z.ltb [9; 7; 5; 3; 1]
              Zltb_StrictWeakOrder H1 H2 H3)
    as [(c' & root & Hrun & _ & _ & _ & _ & Hheap) _].
  exists c'. split; assumption.
Defined.

(** C3.  The downward-restoration step: in [part_000], [percolateDown(i)]
    is the step of the specification (candidate chosen with [compare], the
    right child exactly when [compare(left, right)] holds, the left child
    alone when there is no right child, swap exactly when the candidate
    outranks the node).  In [priority_queue.h] a node with a left child only
    is never swapped: on [1; 2] the root stays below its child. *)
Theorem percolateDown_is_spec_step
  {T : Type} (compare : T → T → bool) (fuel : nat) (c : list T) (i : Z) :
  size c ≤ PTRDIFF_MAX → 1 ≤ i ≤ PTRDIFF_MAX →
  PQ.percolateDown_fuel compare fuel c i = spec_percolateDown compare fuel c i ∧
  (spec_percolateDown Z.ltb 2 [1; 2] 1 = Ok ([2; 1], true) ∧
   PQStub.percolateDown Z.ltb [1; 2] 1 = Ok ([1; 2], false)).
Proof.
  intros Hc Hi. split; [apply percolateDown_fuel_refines; assumption |].
  split; vm_compute; reflexivity.
Qed.

Lemma percolateDown_is_spec_step_witness :
  size [1; 4; 2; 8; 5] ≤ PTRDIFF_MAX ∧ 1 ≤ 1 ≤ PTRDIFF_MAX ∧
  PQ.percolateDown_fuel Z.ltb 3 [1; 4; 2; 8; 5] 1 =
  spec_percolateDown Z.ltb 3 [1; 4; 2; 8; 5] 1.
Proof.
  assert (H1 : size [1; 4; 2; 8; 5] ≤ PTRDIFF_MAX) by (vm_compute; discriminate).
  assert (H2 : 1 ≤ 1 ≤ PTRDIFF_MAX) by (split; vm_compute; discriminate).
  split; [exact H1 |]. split; [exact H2 |].
  exact (proj1 (percolateDown_is_spec_step Z.ltb 3 [1; 4; 2; 8; 5] 1 H1 H2)).
Defined.

(** C4.  [heapify], in [part_000]: the downward-restoration step is run for
    every heap index from the midpoint of the buffer down to heap index 1
    (the first round, at heap index [size / 2 + 1], finds no child and
    changes nothing), and the result, a rearrangement of the storage,
    satisfies the max-heap invariant.  In [priority_queue.h] the loop passes the loop counter itself
    and ends with heap index 0, which reads outside the storage. *)
Theorem heapify_builds_heap
  {T : Type} (compare : T → T → bool) (c : list T) :
  StrictWeakOrder compare →
  size c ≤ INT_MAX →
  PQ.heapify compare c = spec_heapify compare c ∧
  spec_percolateDown compare (height c) c (size c / 2 + 1) = Ok (c, false) ∧
  (∃ c', PQ.heapify compare c = Ok c' ∧
         size c' = size c ∧ c' ≡ₚ c ∧ is_heap compare c') ∧
  PQStub.heapify Z.ltb [1; 2] = Undefined.
Proof.
  intros Hswo Hc. split; [apply heapify_refines; assumption |].
  split; [| split; [apply heapify_restores; assumption |]].
  - apply spec_percolateDown_heap_noop; [apply height_pos |].
    assert (0 ≤ size c / 2) by (unfold size; apply Z.div_pos; lia).
    apply heap_ok_at_leaf; [lia |].
    pose proof (Z.mod_pos_bound (size c) 2 ltac:(lia)).
    pose proof (Z.div_mod (size c) 2 ltac:(lia)). lia.
  - vm_compute. reflexivity.
Qed.

Lemma heapify_builds_heap_witness :
  StrictWeakOrder Z.ltb ∧ size [5; 1; 9; 3; 7] ≤ INT_MAX ∧
  ∃ c', PQ.heapify Z.ltb [5; 1; 9; 3; 7] = Ok c' ∧ is_heap Z.ltb c'.
Proof.
  assert (H : size [5; 1; 9; 3; 7] ≤ INT_MAX) by (vm_compute; discriminate).
  split; [apply Zltb_StrictWeakOrder |]. split; [exact H |].
  destruct (heapify_builds_heap Z.ltb [5; 1; 9; 3; 7] Zltb_StrictWeakOrder H)
    as (_ & _ & (c' & Hrun & _ & _ & Hheap) & _).
  exists c'. split; assumption.
Defined.

(** C5.  [top], in both variants: it throws [std::out_of_range] exactly when
    the queue holds no element; otherwise it returns the element at storage
    offset 0 and leaves the container as it was. *)
Theorem top_throws_iff_empty {T : Type} (c : list T) :
  PQ.top c = match c with
             | [] => Throw_out_of_range
             | x :: _ => Ok (x, c)
             end ∧
  PQStub.top c = PQ.top c ∧
  (PQ.top c = Throw_out_of_range ↔ size c = 0).
Proof.
  split; [| split].
  - destruct c; reflexivity.
  - reflexivity.
  - destruct c as [| x c]; unfold size; simpl.
    + split; reflexivity.
    + split; [discriminate | lia].
Qed.



(** C7.  Start of the upward walk of [push]: in [part_000] it is
    [(new_size + 1) / 2], which is the parent [new_size / 2] of the appended
    leaf only when the new size is even; when the new size is odd the walk
    starts one past the parent.  In [priority_queue.h] nothing is appended
    and the walk starts at half the old size. *)
Theorem push_walk_starts_past_parent
  {T : Type} (compare lt : T → T → bool) (c : list T) (t : T) :
  size c < PTRDIFF_MAX →
  PQ.push compare c t =
    PQ.push_walk compare 65 (push_back c t) (PQ.push_start (push_back c t)) ∧
  PQ.push_start (push_back c t) = (size (push_back c t) + 1) / 2 ∧
  (Z.even (size c) = true →
     PQ.push_start (push_back c t) = size (push_back c t) / 2 + 1) ∧
  (Z.odd (size c) = true →
     PQ.push_start (push_back c t) = size (push_back c t) / 2) ∧
  PQStub.push lt c t = PQStub.push_walk lt 65 c (size c / 2).
Proof.
  intros Hc. pose proof (size_push_back c t) as Hsz.
  assert (Hstart : PQ.push_start (push_back c t) = (size (push_back c t) + 1) / 2).
  { unfold PQ.push_start. rewrite wrap_size_t_small; [reflexivity |].
    unfold size, PTRDIFF_MAX in *. lia. }
  split; [reflexivity |]. split; [exact Hstart |].
  rewrite Hstart, Hsz.
  split; [| split; [| reflexivity]].
  - intros Heven. apply Z.even_spec in Heven. destruct Heven as [k Hk].
    rewrite Hk.
    replace (2 * k + 1 + 1) with ((k + 1) * 2) by lia.
    replace (2 * k + 1) with (1 + k * 2) by lia.
    rewrite Z.div_mul, Z.div_add by lia. reflexivity.
  - intros Hodd. apply Z.odd_spec in Hodd. destruct Hodd as [k Hk].
    rewrite Hk.
    replace (2 * k + 1 + 1 + 1) with (1 + (k + 1) * 2) by lia.
    replace (2 * k + 1 + 1) with ((k + 1) * 2) by lia.
    rewrite Z.div_mul, Z.div_add by lia. reflexivity.
Qed.

Lemma push_walk_starts_past_parent_witness :
  size [2; 1] < PTRDIFF_MAX ∧ Z.even (size [2; 1]) = true ∧
  PQ.push_start (push_back [2; 1] 3) = size (push_back [2; 1] 3) / 2 + 1 ∧
  size (push_back [2; 1] 3) / 2 = 1 ∧
  PQ.push_start (push_back [2; 1] 3) = 2.
Proof.
  assert (H : size [2; 1] < PTRDIFF_MAX) by (vm_compute; reflexivity).
  assert (He : Z.even (size [2; 1]) = true) by reflexivity.
  split; [exact H |]. split; [exact He |].
  split.
  - exact (proj1 (proj2 (proj2 (push_walk_starts_past_parent Z.ltb Z.ltb [2; 1] 3 H))) He).
  - split; vm_compute; reflexivity.
Defined.

(** C8.  [heapify] of [part_000] is idempotent: a second run returns the
    container the first run produced. *)
Theorem heapify_idempotent
  {T : Type} (compare : T → T → bool) (c : list T) :
  StrictWeakOrder compare →
  size c ≤ INT_MAX →
  (PQ.heapify compare c ≫= PQ.heapify compare) = PQ.heapify compare c ∧
  ∃ c', PQ.heapify compare c = Ok c' ∧ PQ.heapify compare c' = Ok c'.
Proof.
  intros Hswo Hc.
  destruct (heapify_restores compare Hswo c Hc) as (c' & Hrun & Hsz & _ & Hheap).
  assert (Hagain : PQ.heapify compare c' = Ok c').
  { unfold PQ.heapify. cbv zeta.
    assert (Hhalf : 0 ≤ size c' / 2 < INT_MAX).
    { unfold size, INT_MAX in *. split; [apply Z.div_pos; lia |].
      apply Z.div_lt_upper_bound; lia. }
    rewrite to_int_small by lia.
    destruct (Z.leb_spec 0 (size c' / 2)); [| lia].
    apply heapify_loop_heap_noop; [| | exact Hheap];
      unfold INT_MAX, PTRDIFF_MAX in *; lia. }
  split.
  - rewrite Hrun, bind_Ok. exact Hagain.
  - exists c'. split; assumption.
Qed.

Lemma heapify_idempotent_witness :
  StrictWeakOrder Z.ltb ∧ size [5; 1; 9; 3; 7] ≤ INT_MAX ∧
  (PQ.heapify Z.ltb [5; 1; 9; 3; 7] ≫= PQ.heapify Z.ltb) =
  PQ.heapify Z.ltb [5; 1; 9; 3; 7].
Proof.
  assert (H : size [5; 1; 9; 3; 7] ≤ INT_MAX) by (vm_compute; discriminate).
  split; [apply Zltb_StrictWeakOrder |]. split; [exact H |].
  exact (proj1 (heapify_idempotent Z.ltb [5; 1; 9; 3; 7] Zltb_StrictWeakOrder H)).
Defined.

(** C9.  [percolateDown(i)] terminates for every heap index [i >= 1], in
    both variants: a recursion budget equal to the height of the heap is
    never exhausted and any larger budget gives the same result; the
    candidate is a child index, at least [2 * i] and within the storage, and
    the call returns at once when [2 * i] exceeds the size. *)
Theorem percolateDown_terminates
  {T : Type} (compare lt : T → T → bool) (c : list T) (i : Z) (fuel : nat) :
  size c ≤ PTRDIFF_MAX → 1 ≤ i < 2 ^ 64 →
  (height c ≤ fuel)%nat →
  (PQ.percolateDown_fuel compare fuel c i ≠ NoFuel ∧
   PQ.percolateDown_fuel compare fuel c i = PQ.percolateDown compare c i) ∧
  (PQStub.percolateDown_fuel lt fuel c i ≠ NoFuel ∧
   PQStub.percolateDown_fuel lt fuel c i = PQStub.percolateDown lt c i) ∧
  (∀ cand, spec_candidate compare c i = Some cand → 2 * i ≤ cand ≤ size c) ∧
  (i ≤ PTRDIFF_MAX → size c < 2 * i →
   PQ.percolateDown_fuel compare fuel c i = Ok (c, false)).
Proof.
  intros Hc Hi Hfuel.
  pose proof (height_pos c) as Hpos.
  pose proof (height_enough c i ltac:(lia)) as Henough.
  assert (Hpq : PQ.percolateDown_fuel compare (height c) c i ≠ NoFuel)
    by (apply percolateDown_fuel_terminates; auto).
  assert (Hstub : PQStub.percolateDown_fuel lt (height c) c i ≠ NoFuel)
    by (apply stub_percolateDown_fuel_terminates; auto).
  pose proof (percolateDown_fuel_le compare _ _ c i Hfuel Hpq) as Hpq'.
  pose proof (stub_percolateDown_fuel_le lt _ _ c i Hfuel Hstub) as Hstub'.
  split; [| split; [| split]].
  - split; [rewrite Hpq'; exact Hpq | exact Hpq'].
  - split; [rewrite Hstub'; exact Hstub | exact Hstub'].
  - intros cand Hcand.
    destruct (spec_candidate_child compare c i cand Hcand) as [[-> | ->] Hin]; lia.
  - intros Hmax Hleaf.
    rewrite percolateDown_fuel_refines by (auto; lia).
    destruct fuel as [| fuel]; [lia |].
    simpl spec_percolateDown. unfold spec_candidate. cbv zeta.
    destruct (Z.leb_spec (2 * i + 1) (size c)); [lia |].
    destruct (Z.leb_spec (2 * i) (size c)); [lia | reflexivity].
Qed.

Lemma percolateDown_terminates_witness :
  size [5; 1; 9; 3; 7] ≤ PTRDIFF_MAX ∧ 1 ≤ 1 < 2 ^ 64 ∧
  (height [5; 1; 9; 3; 7] ≤ 3)%nat ∧
  PQ.percolateDown_fuel Z.ltb 3 [5; 1; 9; 3; 7] 1 ≠ NoFuel ∧
  PQStub.percolateDown_fuel Z.ltb 3 [5; 1; 9; 3; 7] 1 ≠ NoFuel.
Proof.
  assert (H1 : size [5; 1; 9; 3; 7] ≤ PTRDIFF_MAX) by (vm_compute; discriminate).
  assert (H2 : 1 ≤ 1 < 2 ^ 64) by (split; vm_compute; [discriminate | reflexivity]).
  assert (H3 : (height [5; 1; 9; 3; 7] ≤ 3)%nat) by (vm_compute; lia).
  split; [exact H1 |]. split; [exact H2 |]. split; [exact H3 |].
  destruct (percolateDown_terminates Z.ltb Z.ltb [5; 1; 9; 3; 7] 1 3 H1 H2 H3)
    as ((Hpq & _) & (Hstub & _) & _).
  split; assumption.
Defined.

(** C10.  Bounds of [heapify]: an access [v[o]] returns only when [o] lies
    between 0 and [size - 1], and is [Undefined] otherwise.  In [part_000]
    every index passed to the downward-restoration step lies between 1 and
    [size / 2 + 1] and the run returns normally, so every offset read or
    swapped is inside the storage.
    In [priority_queue.h] the last round of the loop passes heap index 0,
    and [percolateDown(0)] on non-empty storage reads offset [0 - 1]. *)
Theorem heapify_stays_in_bounds
  {T : Type} (compare lt : T → T → bool) (c : list T) :
  size c ≤ INT_MAX →
  (∀ (v : list T) o x, index v o = Ok x → 0 ≤ o ≤ size v - 1) ∧
  (PQ.heapify compare c = spec_heapify compare c ∧
   (∀ i, In i (midpoint_down c) → 1 ≤ i ≤ size c / 2 + 1) ∧
   ∃ c', PQ.heapify compare c = Ok c' ∧ size c' = size c) ∧
  (PQStub.heapify_loop lt 1 c =
     ('(c1, _) ← PQStub.percolateDown lt c 0; Ok c1) ∧
   (1 ≤ size c → PQStub.percolateDown lt c 0 = Undefined) ∧
   PQStub.heapify Z.ltb [5] = Undefined).
Proof.
  intros Hc. split; [| split; [split; [| split] | split; [| split]]].
  - intros v o x Hx. apply index_Ok_inv in Hx. lia.
  - apply heapify_refines. exact Hc.
  - apply midpoint_down_range.
  - apply heapify_returns. exact Hc.
  - reflexivity.
  - intros Hne. unfold PQStub.percolateDown, height.
    rewrite stub_percolateDown_fuel_unfold. cbv zeta.
    change (wrap_size_t (0 * 2)) with 0.
    change (wrap_size_t (0 + 1)) with 1.
    destruct (Z.leb_spec 1 (size c)); [| lia].
    destruct (Z.leb_spec 0 (size c)); [| lia].
    simpl andb. cbv iota.
    rewrite (index_out c (wrap_size_t (0 - 1))); [reflexivity |].
    change (wrap_size_t (0 - 1)) with (2 ^ 64 - 1).
    unfold INT_MAX in Hc. lia.
  - vm_compute. reflexivity.
Qed.

Lemma heapify_stays_in_bounds_witness :
  size [5; 1; 9; 3; 7] ≤ INT_MAX ∧
  (∃ c', PQ.heapify Z.ltb [5; 1; 9; 3; 7] = Ok c' ∧
         size c' = size [5; 1; 9; 3; 7]) ∧
  PQStub.percolateDown Z.ltb [5; 1; 9; 3; 7] 0 = Undefined.
Proof.
  assert (H : size [5; 1; 9; 3; 7] ≤ INT_MAX) by (vm_compute; discriminate).
  split; [exact H |].
  destruct (heapify_stays_in_bounds Z.ltb Z.ltb [5; 1; 9; 3; 7] H)
    as (_ & (_ & _ & Hret) & (_ & Hzero & _)).
  split; [exact Hret |].
  apply Hzero. vm_compute. discriminate.
Defined.

(** * Further properties of the code *)

(** ** What one downward restoration does to the storage *)

Section Keeps.
Context {T : Type} (compare : T → T → bool).
Implicit Types (c : list T) (i j : Z).

Lemma spec_percolateDown_keeps fuel : ∀ c i,
  1 ≤ i →
  (1 ≤ fuel)%nat →
  size c < i * 2 ^ Z.of_nat fuel →
  ∃ c' changed,
    spec_percolateDown compare fuel c i = Ok (c', changed) ∧
    size c' = size c ∧
    c' ≡ₚ c ∧
    (∀ j, j < i → element_at c' j = element_at c j) ∧
    (changed = false → c' = c) ∧
    (changed = true →
       ∃ p b, element_at c i = Some p ∧ element_at c' i = Some b ∧
              compare p b = true).
Proof.
  induction fuel as [| fuel IH]; intros c i Hi Hfuel Hsize; [lia |].
  simpl spec_percolateDown.
  destruct (spec_candidate compare c i) as [cand |] eqn:Hcand.
  2:{ exists c, false. repeat split; auto. discriminate. }
  destruct (spec_candidate_child compare c i cand Hcand) as [Hchild Hin].
  destruct (outranks compare c i cand) eqn:Hout.
  2:{ exists c, false. repeat split; auto. discriminate. }
  destruct (element_at_is_Some c cand) as [b Hb]; [lia |].
  unfold outranks in Hout. rewrite Hb in Hout.
  destruct (element_at c i) as [p |] eqn:Hp; [| discriminate].
  pose proof (element_at_exchange c i cand p b) as Hex.
  specialize (fun m => Hex m Hp Hb).
  destruct (fuel_descends fuel i cand (size c)) as [Hf1 Hf2];
    [lia | lia | lia | exact Hsize |].
  destruct (IH (spec_exchange c i cand) cand)
    as (c' & changed & Hrun & Hsz & Hperm & Hframe & _ & _).
  - lia.
  - exact Hf1.
  - rewrite size_spec_exchange. exact Hf2.
  - exists c', true. rewrite Hrun. simpl.
    rewrite size_spec_exchange in Hsz.
    split; [reflexivity |]. split; [exact Hsz |].
    split; [rewrite Hperm; apply spec_exchange_Permutation |].
    split; [| split; [discriminate |]].
    + intros j Hj. rewrite Hframe by lia. rewrite Hex.
      destruct (Z.eqb_spec j cand); [lia |].
      destruct (Z.eqb_spec j i); [lia | reflexivity].
    + intros _. exists p, b. split; [reflexivity |]. split; [| exact Hout].
      rewrite Hframe by lia. rewrite Hex.
      destruct (Z.eqb_spec i cand); [lia |].
      rewrite Z.eqb_refl. reflexivity.
Qed.

Lemma percolateDown_keeps c i :
  size c ≤ PTRDIFF_MAX → 1 ≤ i ≤ PTRDIFF_MAX →
  ∃ c' changed,
    PQ.percolateDown compare c i = Ok (c', changed) ∧
    size c' = size c ∧
    c' ≡ₚ c ∧
    (∀ j, j < i → element_at c' j = element_at c j) ∧
    (changed = false → c' = c) ∧
    (changed = true →
       ∃ p b, element_at c i = Some p ∧ element_at c' i = Some b ∧
              compare p b = true).
Proof.
  intros Hc Hi. rewrite percolateDown_refines by assumption.
  apply spec_percolateDown_keeps; [lia | apply height_pos |].
  apply height_enough. lia.
Qed.

End Keeps.

(** ** [heapify], [push] and [pop] of [part_000] under any comparator *)

Section AnyComparator.
Context {T : Type} (compare : T → T → bool).
Implicit Types (c : list T) (i j : Z).

Lemma heapify_loop_keeps n : ∀ c,
  Z.of_nat n ≤ INT_MAX → size c ≤ PTRDIFF_MAX →
  ∃ c', PQ.heapify_loop compare n c = Ok c' ∧ size c' = size c ∧ c' ≡ₚ c.
Proof.
  induction n as [| n IH]; intros c Hn Hc; [exists c; auto |].
  simpl PQ.heapify_loop.
  destruct (Z.ltb_spec (Z.of_nat n) INT_MAX) as [Hlt | Hge]; [| lia].
  rewrite wrap_size_t_small by (unfold INT_MAX in *; lia).
  destruct (percolateDown_keeps compare c (Z.of_nat n + 1))
    as (c1 & ch & Hrun & Hsz & Hperm & _);
    [exact Hc | unfold INT_MAX, PTRDIFF_MAX in *; lia |].
  rewrite Hrun. simpl.
  destruct (IH c1) as (c' & Hrun' & Hsz' & Hperm'); [lia | lia |].
  exists c'. split; [exact Hrun' |]. split; [lia |].
  rewrite Hperm'. exact Hperm.
Qed.

Lemma heapify_keeps c :
  size c ≤ INT_MAX →
  ∃ c', PQ.heapify compare c = Ok c' ∧ size c' = size c ∧ c' ≡ₚ c.
Proof.
  intros Hc. unfold PQ.heapify. cbv zeta.
  assert (Hhalf : 0 ≤ size c / 2 < INT_MAX).
  { unfold size, INT_MAX in *. split; [apply Z.div_pos; lia |].
    apply Z.div_lt_upper_bound; lia. }
  rewrite to_int_small by lia.
  destruct (Z.leb_spec 0 (size c / 2)); [| lia].
  apply heapify_loop_keeps; unfold INT_MAX, PTRDIFF_MAX in *; lia.
Qed.

Lemma push_walk_unfold (fuel : nat) c i :
  PQ.push_walk compare (S fuel) c i =
    if 0 <? i then
      '(c1, changed) ← PQ.percolateDown compare c i;
      if changed : bool then PQ.push_walk compare fuel c1 (i / 2) else Ok c1
    else Ok c.
Proof. reflexivity. Qed.

Lemma push_walk_keeps (f : nat) : ∀ c i,
  size c ≤ PTRDIFF_MAX → 0 ≤ i < 2 ^ Z.of_nat f → i ≤ PTRDIFF_MAX →
  ∃ c', PQ.push_walk compare (S f) c i = Ok c' ∧ size c' = size c ∧ c' ≡ₚ c.
Proof.
  induction f as [| f IH]; intros c i Hc Hi Hmax.
  - change (2 ^ Z.of_nat 0) with 1 in Hi. assert (i = 0) as -> by lia.
    exists c. auto.
  - rewrite push_walk_unfold.
    destruct (Z.ltb_spec 0 i) as [Hpos | Hzero]; [| exists c; auto].
    destruct (percolateDown_keeps compare c i)
      as (c1 & ch & Hrun & Hsz & Hperm & _); [exact Hc | lia |].
    rewrite Hrun. simpl. destruct ch; [| exists c1; auto].
    destruct (IH c1 (i / 2)) as (c' & Hrun' & Hsz' & Hperm').
    + lia.
    + split; [apply Z.div_pos; lia |].
      apply Z.div_lt_upper_bound; [lia |].
      rewrite Nat2Z.inj_succ, Z.pow_succ_r in Hi by lia. lia.
    + pose proof (Z.div_le_upper_bound i 2 i ltac:(lia) ltac:(lia)). lia.
    + exists c'. split; [exact Hrun' |]. split; [lia |].
      rewrite Hperm'. exact Hperm.
Qed.

Lemma push_start_push_back c t :
  size c < PTRDIFF_MAX →
  PQ.push_start (push_back c t) = (size c + 2) / 2.
Proof.
  intros Hc. unfold PQ.push_start. rewrite size_push_back.
  rewrite wrap_size_t_small by (unfold size, PTRDIFF_MAX in *; lia).
  f_equal. lia.
Qed.

Lemma push_keeps c t :
  size c < PTRDIFF_MAX →
  ∃ c', PQ.push compare c t = Ok c' ∧ size c' = size c + 1 ∧ c' ≡ₚ t :: c.
Proof.
  intros Hc. unfold PQ.push. cbv zeta.
  pose proof (size_push_back c t) as Hsz.
  rewrite push_start_push_back by exact Hc.
  assert (Hstart : 0 ≤ (size c + 2) / 2 ≤ size c + 1).
  { split; [apply Z.div_pos; unfold size; lia |].
    apply Z.div_le_upper_bound; unfold size; lia. }
  destruct (push_walk_keeps 64 (push_back c t) ((size c + 2) / 2))
    as (c' & Hrun & Hsz' & Hperm).
  - lia.
  - unfold PTRDIFF_MAX in *. change (Z.of_nat 64) with 64. lia.
  - lia.
  - exists c'. split; [exact Hrun |]. split; [lia |].
    rewrite Hperm. unfold push_back. symmetry. apply Permutation_cons_append.
Qed.

(** A node without children: the restoration returns at once. *)
Lemma percolateDown_leaf c i :
  size c ≤ PTRDIFF_MAX → 1 ≤ i ≤ PTRDIFF_MAX → size c < 2 * i →
  PQ.percolateDown compare c i = Ok (c, false).
Proof.
  intros Hc Hi Hleaf. rewrite percolateDown_refines by assumption.
  unfold height. simpl spec_percolateDown. unfold spec_candidate. cbv zeta.
  destruct (Z.leb_spec (2 * i + 1) (size c)); [lia |].
  destruct (Z.leb_spec (2 * i) (size c)); [lia | reflexivity].
Qed.

Lemma push_odd_appends c t :
  size c < PTRDIFF_MAX → Z.even (size c) = true →
  PQ.push compare c t = Ok (c ++ [t]).
Proof.
  intros Hc Heven. unfold PQ.push. cbv zeta.
  rewrite push_start_push_back by exact Hc.
  apply Z.even_spec in Heven. destruct Heven as [k Hk].
  assert (Hstart : (size c + 2) / 2 = k + 1).
  { rewrite Hk. replace (2 * k + 2) with ((k + 1) * 2) by lia.
    apply Z.div_mul. lia. }
  rewrite Hstart.
  change 65%nat with (S 64). rewrite push_walk_unfold.
  assert (0 ≤ k) by (unfold size in Hk; lia).
  destruct (Z.ltb_spec 0 (k + 1)); [| lia].
  rewrite percolateDown_leaf; [reflexivity | | |];
    rewrite ?size_push_back; unfold PTRDIFF_MAX in *; lia.
Qed.

Lemma pop_unfold c root lst :
  1 ≤ size c → size c ≤ PTRDIFF_MAX →
  element_at c 1 = Some root → element_at c (size c) = Some lst →
  PQ.pop compare c =
    ('(c3, _) ← PQ.percolateDown compare
                  (take (length c - 1)%nat (spec_exchange c 1 (size c))) 1;
     Ok c3) ∧
  spec_exchange c 1 (size c) =
    take (length c - 1)%nat (spec_exchange c 1 (size c)) ++ [root].
Proof.
  intros Hne Hc Hroot Hlst.
  pose proof (element_at_exchange c 1 (size c) root lst) as Hex.
  specialize (fun m => Hex m Hroot Hlst).
  pose proof (size_spec_exchange c 1 (size c)) as Hsz1.
  split.
  - unfold PQ.pop, empty.
    destruct (Z.eqb_spec (size c) 0); [lia |]. simpl negb. cbv iota.
    rewrite wrap_size_t_small by (unfold PTRDIFF_MAX in *; lia).
    change 0 with (1 - 1) at 1.
    rewrite (swap_at_exchange c 1 (size c) root lst Hroot Hlst).
    rewrite bind_Ok.
    rewrite (pop_back_take (spec_exchange c 1 (size c))) by lia.
    rewrite bind_Ok.
    replace (length (spec_exchange c 1 (size c)) - 1)%nat with (length c - 1)%nat
      by (unfold size in *; lia).
    reflexivity.
  - assert (Hlast : spec_exchange c 1 (size c) !! (length c - 1)%nat = Some root).
    { pose proof (Hex (size c)) as Hs. rewrite Z.eqb_refl in Hs.
      rewrite element_at_lookup in Hs by lia.
      replace (Z.to_nat (size c - 1)) with (length c - 1)%nat in Hs
        by (unfold size; lia).
      exact Hs. }
    rewrite <- (take_S_r _ (length c - 1) root Hlast).
    symmetry. apply take_ge. unfold size in *. lia.
Qed.

Lemma pop_keeps c :
  1 ≤ size c → size c ≤ PTRDIFF_MAX →
  ∃ c' root,
    PQ.pop compare c = Ok c' ∧
    c !! 0%nat = Some root ∧
    size c' = size c - 1 ∧
    root :: c' ≡ₚ c.
Proof.
  intros Hne Hc.
  destruct (element_at_is_Some c 1) as [root Hroot]; [lia |].
  destruct (element_at_is_Some c (size c)) as [lst Hlst]; [lia |].
  destruct (pop_unfold c root lst Hne Hc Hroot Hlst) as [Hstep Hsplit].
  set (c2 := take (length c - 1)%nat (spec_exchange c 1 (size c))) in *.
  assert (Hsz2 : size c2 = size c - 1).
  { unfold c2, size. rewrite length_take.
    pose proof (size_spec_exchange c 1 (size c)) as Hs. unfold size in *. lia. }
  destruct (percolateDown_keeps compare c2 1)
    as (c' & ch & Hrun & Hsz & Hperm & _);
    [lia | unfold PTRDIFF_MAX; lia |].
  exists c', root. rewrite Hstep, Hrun. simpl.
  split; [reflexivity |].
  split; [rewrite element_at_lookup in Hroot by lia; exact Hroot |].
  split; [lia |].
  rewrite Hperm.
  transitivity (spec_exchange c 1 (size c)); [| apply spec_exchange_Permutation].
  rewrite Hsplit. apply Permutation_cons_append.
Qed.

End AnyComparator.

(** ** The root of a heap *)

Section Root.
Context {T : Type} (compare : T → T → bool) (Hswo : StrictWeakOrder compare).
Implicit Types (c : list T) (i j : Z).

Lemma heap_root_dominates c r :
  is_heap compare c → element_at c 1 = Some r →
  ∀ i, 1 ≤ i → ∀ y, element_at c i = Some y → compare r y = false.
Proof.
  intros Hheap Hr i Hi.
  induction (Z.lt_wf 1 i) as [i _ IH]. intros y Hy.
  destruct (Z.eq_dec i 1) as [-> | Hne].
  - assert (y = r) as -> by congruence. apply (swo_irrefl compare Hswo).
  - pose proof (element_at_Some _ _ _ Hy) as Hin.
    pose proof (Z.div_mod i 2 ltac:(lia)) as Hdiv.
    pose proof (Z.mod_pos_bound i 2 ltac:(lia)) as Hmod.
    set (p := i / 2) in *.
    destruct (element_at_is_Some c p) as [v Hv]; [lia |].
    assert (Hrv : compare r v = false) by (apply (IH p); [lia | lia | exact Hv]).
    pose proof (Hheap p ltac:(lia)) as Hok.
    assert (Hvy : compare v y = false).
    { apply (proj1 (outranks_false_iff compare c p i)
               (proj1 (heap_ok_at_iff compare c p) Hok i ltac:(lia))); assumption. }
    exact (swo_negtrans compare Hswo r v y Hrv Hvy).
Qed.

Lemma top_Ok_inv c x c0 :
  PQ.top c = Ok (x, c0) → c0 = c ∧ element_at c 1 = Some x.
Proof.
  destruct c as [| h t]; [discriminate |].
  unfold PQ.top. simpl. intros [= -> <-]. auto.
Qed.

Lemma elem_of_element_at c y : y ∈ c → ∃ i, 1 ≤ i ∧ element_at c i = Some y.
Proof.
  intros Hy. apply list_elem_of_lookup in Hy. destruct Hy as [n Hn].
  exists (Z.of_nat n + 1). split; [lia |].
  rewrite element_at_lookup by lia.
  replace (Z.to_nat (Z.of_nat n + 1 - 1)) with n by lia. exact Hn.
Qed.

Lemma heap_top_dominates c x c0 y :
  is_heap compare c → PQ.top c = Ok (x, c0) → y ∈ c → compare x y = false.
Proof.
  intros Hheap Htop Hy.
  destruct (top_Ok_inv c x c0 Htop) as [_ Hx].
  destruct (elem_of_element_at c y Hy) as (i & Hi & Hiy).
  exact (heap_root_dominates c x Hheap Hx i Hi y Hiy).
Qed.

Lemma heapify_heap_noop c :
  size c ≤ INT_MAX → is_heap compare c → PQ.heapify compare c = Ok c.
Proof.
  intros Hc Hheap. unfold PQ.heapify. cbv zeta.
  assert (Hhalf : 0 ≤ size c / 2 < INT_MAX).
  { unfold size, INT_MAX in *. split; [apply Z.div_pos; lia |].
    apply Z.div_lt_upper_bound; lia. }
  rewrite to_int_small by lia.
  destruct (Z.leb_spec 0 (size c / 2)); [| lia].
  apply heapify_loop_heap_noop; [| | exact Hheap];
    unfold INT_MAX, PTRDIFF_MAX in *; lia.
Qed.

Lemma push_range_keeps (range : list T) : ∀ c,
  size c + Z.of_nat (length range) < PTRDIFF_MAX →
  ∃ c', PQ.push_range compare c range = Ok c' ∧
        size c' = size c + Z.of_nat (length range) ∧
        c' ≡ₚ c ++ range.
Proof.
  induction range as [| t rest IH]; intros c Hc.
  - exists c. simpl. rewrite app_nil_r. repeat split; auto. lia.
  - change (PQ.push_range compare c (t :: rest)) with
      (c1 ← PQ.push compare c t; PQ.push_range compare c1 rest).
    simpl length in Hc.
    destruct (push_keeps compare c t) as (c1 & Hrun & Hsz & Hperm); [lia |].
    rewrite Hrun, bind_Ok.
    destruct (IH c1) as (c' & Hrun' & Hsz' & Hperm'); [lia |].
    exists c'. split; [exact Hrun' |]. split; [simpl length; lia |].
    rewrite Hperm', Hperm. simpl. apply Permutation_middle.
Qed.

End Root.

(** ** [priority_queue.h]: what its operations do to the storage *)

Section StubKeeps.
Context {T : Type} (lt : T → T → bool).
Implicit Types (c : list T) (i j : Z).

Lemma swap_at_Permutation c a b c1 : swap_at c a b = Ok c1 → c1 ≡ₚ c.
Proof.
  unfold swap_at, index.
  destruct ((0 <=? a) && (a <? size c)); [| discriminate].
  destruct (c !! Z.to_nat a) as [x |] eqn:Hx; [| discriminate].
  rewrite bind_Ok.
  destruct ((0 <=? b) && (b <? size c)); [| discriminate].
  destruct (c !! Z.to_nat b) as [y |] eqn:Hy; [| discriminate].
  rewrite bind_Ok. intros [= <-].
  apply insert_insert_Permutation; assumption.
Qed.

Lemma stub_percolateDown_fuel_keeps fuel : ∀ c i,
  size c ≤ PTRDIFF_MAX → 1 ≤ i ≤ PTRDIFF_MAX →
  (1 ≤ fuel)%nat → size c < i * 2 ^ Z.of_nat fuel →
  ∃ c' changed,
    PQStub.percolateDown_fuel lt fuel c i = Ok (c', changed) ∧
    size c' = size c ∧ c' ≡ₚ c ∧ (changed = false → c' = c).
Proof.
  induction fuel as [| fuel IH]; intros c i Hc Hi Hfuel Hsize; [lia |].
  rewrite stub_percolateDown_fuel_unfold. cbv zeta.
  assert (HL : wrap_size_t (i * 2) = 2 * i)
    by (rewrite wrap_size_t_small; unfold PTRDIFF_MAX in *; lia).
  rewrite HL.
  assert (HR : wrap_size_t (2 * i + 1) = 2 * i + 1)
    by (rewrite wrap_size_t_small; unfold PTRDIFF_MAX in *; lia).
  rewrite HR.
  destruct (Z.leb_spec (2 * i + 1) (size c)) as [Hr | Hr];
    [| exists c, false; auto].
  destruct (Z.leb_spec (2 * i) (size c)) as [Hl | Hl]; [| lia].
  simpl andb. cbv iota.
  destruct (element_at_is_Some c (2 * i)) as [l Hel]; [lia |].
  destruct (element_at_is_Some c (2 * i + 1)) as [r Her]; [lia |].
  destruct (element_at_is_Some c i) as [p Hep]; [lia |].
  rewrite !wrap_size_t_small by (unfold PTRDIFF_MAX in *; lia).
  rewrite (index_element_at c (2 * i - 1) l)
    by (replace (2 * i - 1 + 1) with (2 * i) by lia; exact Hel).
  rewrite (index_element_at c (2 * i + 1 - 1) r)
    by (replace (2 * i + 1 - 1 + 1) with (2 * i + 1) by lia; exact Her).
  rewrite !bind_Ok.
  set (B := if lt l r then 2 * i + 1 else 2 * i).
  assert (HB : 2 * i ≤ B ≤ size c) by (unfold B; destruct (lt l r); lia).
  destruct (element_at_is_Some c B) as [b Heb]; [lia |].
  rewrite wrap_size_t_small by (unfold PTRDIFF_MAX in *; lia).
  rewrite (index_element_at c (i - 1) p)
    by (replace (i - 1 + 1) with i by lia; exact Hep).
  rewrite (index_element_at c (B - 1) b)
    by (replace (B - 1 + 1) with B by lia; exact Heb).
  rewrite !bind_Ok.
  destruct (lt p b); [| exists c, false; auto].
  rewrite (swap_at_exchange c i B p b Hep Heb). rewrite bind_Ok.
  destruct (fuel_descends fuel i B (size c)) as [Hf1 Hf2];
    [lia | lia | lia | exact Hsize |].
  destruct (IH (spec_exchange c i B) B) as (c' & ch & Hrun & Hsz & Hperm & _).
  - rewrite size_spec_exchange. exact Hc.
  - lia.
  - exact Hf1.
  - rewrite size_spec_exchange. exact Hf2.
  - exists c', true. rewrite Hrun. simpl.
    rewrite size_spec_exchange in Hsz.
    split; [reflexivity |]. split; [exact Hsz |].
    split; [| discriminate].
    rewrite Hperm. apply spec_exchange_Permutation.
Qed.

Lemma stub_percolateDown_keeps c i :
  size c ≤ PTRDIFF_MAX → 1 ≤ i ≤ PTRDIFF_MAX →
  ∃ c' changed,
    PQStub.percolateDown lt c i = Ok (c', changed) ∧
    size c' = size c ∧ c' ≡ₚ c ∧ (changed = false → c' = c).
Proof.
  intros Hc Hi. apply stub_percolateDown_fuel_keeps; auto.
  - apply height_pos.
  - apply height_enough. lia.
Qed.

Lemma stub_percolateDown_zero c :
  1 ≤ size c → size c ≤ PTRDIFF_MAX →
  PQStub.percolateDown lt c 0 = Undefined.
Proof.
  intros Hne Hc. unfold PQStub.percolateDown, height.
  rewrite stub_percolateDown_fuel_unfold. cbv zeta.
  change (wrap_size_t (0 * 2)) with 0.
  change (wrap_size_t (0 + 1)) with 1.
  destruct (Z.leb_spec 1 (size c)); [| lia].
  destruct (Z.leb_spec 0 (size c)); [| lia].
  simpl andb. cbv iota.
  rewrite (index_out c (wrap_size_t (0 - 1))); [reflexivity |].
  change (wrap_size_t (0 - 1)) with (2 ^ 64 - 1).
  unfold PTRDIFF_MAX in Hc. lia.
Qed.

Lemma stub_heapify_loop_fails n : ∀ c,
  Z.of_nat n ≤ PTRDIFF_MAX →
  1 ≤ size c → size c ≤ PTRDIFF_MAX →
  PQStub.heapify_loop lt (S n) c = Undefined.
Proof.
  induction n as [| n IH]; intros c Hn Hne Hc.
  - simpl PQStub.heapify_loop. change (wrap_size_t (Z.of_nat 0)) with 0.
    rewrite stub_percolateDown_zero by assumption. reflexivity.
  - change (PQStub.heapify_loop lt (S (S n)) c) with
      ('(c1, _) ← PQStub.percolateDown lt c (wrap_size_t (Z.of_nat (S n)));
       PQStub.heapify_loop lt (S n) c1).
    rewrite wrap_size_t_small by (unfold PTRDIFF_MAX in *; lia).
    destruct (stub_percolateDown_keeps c (Z.of_nat (S n)))
      as (c1 & ch & Hrun & Hsz & _); [exact Hc | lia |].
    rewrite Hrun. simpl. apply IH; lia.
Qed.

Lemma stub_heapify_fails c :
  1 ≤ size c → size c ≤ INT_MAX → PQStub.heapify lt c = Undefined.
Proof.
  intros Hne Hc. unfold PQStub.heapify. cbv zeta.
  assert (Hhalf : 0 ≤ size c / 2 < INT_MAX).
  { unfold size, INT_MAX in *. split; [apply Z.div_pos; lia |].
    apply Z.div_lt_upper_bound; lia. }
  rewrite to_int_small by lia.
  destruct (Z.leb_spec 0 (size c / 2)); [| lia].
  replace (Z.to_nat (size c / 2 + 1)) with (S (Z.to_nat (size c / 2))) by lia.
  apply stub_heapify_loop_fails; unfold INT_MAX, PTRDIFF_MAX in *; lia.
Qed.

Lemma stub_push_walk_unfold (fuel : nat) c i :
  PQStub.push_walk lt (S fuel) c i =
    if negb (i =? 0) then
      '(c1, changed) ← PQStub.percolateDown lt c i;
      if changed : bool then PQStub.push_walk lt fuel c1 (i / 2) else Ok c1
    else Ok c.
Proof. reflexivity. Qed.

Lemma stub_push_walk_keeps (f : nat) : ∀ c i,
  size c ≤ PTRDIFF_MAX → 0 ≤ i < 2 ^ Z.of_nat f → i ≤ PTRDIFF_MAX →
  ∃ c', PQStub.push_walk lt (S f) c i = Ok c' ∧ size c' = size c ∧ c' ≡ₚ c.
Proof.
  induction f as [| f IH]; intros c i Hc Hi Hmax.
  - change (2 ^ Z.of_nat 0) with 1 in Hi. assert (i = 0) as -> by lia.
    exists c. auto.
  - rewrite stub_push_walk_unfold.
    destruct (Z.eqb_spec i 0) as [Hz | Hnz]; [exists c; auto |]. simpl negb. cbv iota.
    destruct (stub_percolateDown_keeps c i)
      as (c1 & ch & Hrun & Hsz & Hperm & _); [exact Hc | lia |].
    rewrite Hrun. simpl. destruct ch; [| exists c1; auto].
    destruct (IH c1 (i / 2)) as (c' & Hrun' & Hsz' & Hperm').
    + lia.
    + split; [apply Z.div_pos; lia |].
      apply Z.div_lt_upper_bound; [lia |].
      rewrite Nat2Z.inj_succ, Z.pow_succ_r in Hi by lia. lia.
    + pose proof (Z.div_le_upper_bound i 2 i ltac:(lia) ltac:(lia)). lia.
    + exists c'. split; [exact Hrun' |]. split; [lia |].
      rewrite Hperm'. exact Hperm.
Qed.

Lemma stub_push_keeps c t :
  size c ≤ PTRDIFF_MAX →
  ∃ c', PQStub.push lt c t = Ok c' ∧ size c' = size c ∧ c' ≡ₚ c.
Proof.
  intros Hc. unfold PQStub.push, PQStub.push_start.
  assert (0 ≤ size c / 2 ≤ size c).
  { split; [apply Z.div_pos; unfold size; lia |].
    apply Z.div_le_upper_bound; unfold size; lia. }
  apply (stub_push_walk_keeps 64); [exact Hc | | lia].
  unfold PTRDIFF_MAX in *. change (Z.of_nat 64) with 64. lia.
Qed.

Lemma stub_push_range_empty (range : list T) :
  PQStub.push_range lt [] range = Ok [].
Proof.
  induction range as [| t rest IH]; [reflexivity |].
  change (PQStub.push_range lt [] (t :: rest)) with
    (c1 ← PQStub.push lt [] t; PQStub.push_range lt c1 rest).
  change (PQStub.push lt [] t) with (Ok ([] : list T)).
  rewrite bind_Ok. exact IH.
Qed.

End StubKeeps.

(** ** The upward walk of [push] in [part_000] when it starts at the parent *)

Section Walk.
Context {T : Type} (compare : T → T → bool) (Hswo : StrictWeakOrder compare).
Implicit Types (d : list T) (i j h : Z) (t p : T).

Lemma element_at_app_l (c l : list T) i :
  i ≤ size c → element_at (c ++ l) i = element_at c i.
Proof.
  intros Hi. unfold element_at. destruct (Z.ltb_spec i 1); [reflexivity |].
  apply lookup_app_l. unfold size in Hi. lia.
Qed.

Lemma element_at_app_last (c : list T) t :
  element_at (c ++ [t]) (size c + 1) = Some t.
Proof.
  rewrite element_at_lookup by (unfold size; lia).
  replace (Z.to_nat (size c + 1 - 1)) with (length c + 0)%nat by (unfold size; lia).
  rewrite lookup_app_r by lia.
  replace (length c + 0 - length c)%nat with 0%nat by lia. reflexivity.
Qed.

(** The element that moves up sits at [h], a child of [i]; every node but
    [i] is in order, and [i] is in order with respect to its other child. *)
Lemma walk_candidate d i h t p :
  1 ≤ i → h = 2 * i ∨ h = 2 * i + 1 →
  element_at d h = Some t → element_at d i = Some p →
  compare p t = true →
  (∀ s, s = 2 * i ∨ s = 2 * i + 1 → s ≠ h → outranks compare d i s = false) →
  spec_candidate compare d i = Some h.
Proof.
  intros Hi Hh Ht Hp Hpt Hother.
  pose proof (element_at_Some _ _ _ Ht) as Hhin.
  unfold spec_candidate. cbv zeta.
  destruct (Z.leb_spec (2 * i + 1) (size d)) as [Hr | Hr].
  - destruct (element_at_is_Some d (2 * i)) as [l Hl]; [lia |].
    destruct (element_at_is_Some d (2 * i + 1)) as [r Hrr]; [lia |].
    rewrite (outranks_Some compare d _ _ l r Hl Hrr).
    destruct Hh as [-> | ->].
    + (* the element is the left child *)
      assert (t = l) as -> by congruence.
      pose proof (Hother (2 * i + 1) ltac:(lia) ltac:(lia)) as Hpr.
      rewrite (outranks_Some compare d _ _ p r Hp Hrr) in Hpr.
      destruct (compare l r) eqn:Hlr; [| reflexivity].
      rewrite (swo_trans compare Hswo p l r Hpt Hlr) in Hpr. discriminate.
    + (* the element is the right child *)
      assert (t = r) as -> by congruence.
      pose proof (Hother (2 * i) ltac:(lia) ltac:(lia)) as Hpl.
      rewrite (outranks_Some compare d _ _ p l Hp Hl) in Hpl.
      destruct (compare l r) eqn:Hlr; [reflexivity |].
      rewrite (swo_negtrans compare Hswo p l r Hpl Hlr) in Hpt. discriminate.
  - destruct (Z.leb_spec (2 * i) (size d)); [| lia].
    f_equal. lia.
Qed.

Lemma walk_swap (fuel : nat) d i h t p :
  1 ≤ i → h = 2 * i ∨ h = 2 * i + 1 →
  element_at d h = Some t → element_at d i = Some p →
  compare p t = true →
  (∀ s, s = 2 * i ∨ s = 2 * i + 1 → s ≠ h → outranks compare d i s = false) →
  (∀ ch, ch = 2 * h ∨ ch = 2 * h + 1 → outranks compare d i ch = false) →
  spec_percolateDown compare (S (S fuel)) d i = Ok (spec_exchange d i h, true).
Proof.
  intros Hi Hh Ht Hp Hpt Hother Hgrand.
  pose proof (element_at_exchange d i h p t) as Hex.
  specialize (fun m => Hex m Hp Ht).
  change (spec_percolateDown compare (S (S fuel)) d i) with
    (match spec_candidate compare d i with
     | Some cand =>
       if outranks compare d i cand then
         '(c2, _) ← spec_percolateDown compare (S fuel) (spec_exchange d i cand) cand;
         Ok (c2, true)
       else Ok (d, false)
     | None => Ok (d, false)
     end).
  rewrite (walk_candidate d i h t p) by assumption.
  rewrite (outranks_Some compare d i h p t Hp Ht), Hpt.
  rewrite spec_percolateDown_heap_noop; [reflexivity | lia |].
  apply heap_ok_at_iff. intros ch Hch.
  apply outranks_false_iff. intros x y Hx Hy.
  rewrite Hex in Hx, Hy.
  rewrite Z.eqb_refl in Hx. injection Hx as <-.
  destruct (Z.eqb_spec ch h); [lia |].
  destruct (Z.eqb_spec ch i); [lia |].
  apply (proj1 (outranks_false_iff compare d i ch) (Hgrand ch Hch)); assumption.
Qed.

(** After the exchange every node but the parent of [i] is in order, and
    that parent is in order with respect to everything below it except the
    element that moved up. *)
Lemma walk_next d i h t p :
  1 ≤ i → h = 2 * i ∨ h = 2 * i + 1 →
  element_at d h = Some t → element_at d i = Some p →
  compare p t = true →
  (∀ j, 1 ≤ j → j ≠ i → heap_ok_at compare d j = true) →
  (∀ s, s = 2 * i ∨ s = 2 * i + 1 → s ≠ h → outranks compare d i s = false) →
  (∀ ch, ch = 2 * h ∨ ch = 2 * h + 1 → outranks compare d i ch = false) →
  element_at (spec_exchange d i h) i = Some t ∧
  (∀ j, 1 ≤ j → j ≠ i / 2 → heap_ok_at compare (spec_exchange d i h) j = true) ∧
  (∀ s, s = 2 * (i / 2) ∨ s = 2 * (i / 2) + 1 → s ≠ i →
        outranks compare (spec_exchange d i h) (i / 2) s = false) ∧
  (∀ ch, ch = 2 * i ∨ ch = 2 * i + 1 →
         outranks compare (spec_exchange d i h) (i / 2) ch = false).
Proof.
  intros Hi Hh Ht Hp Hpt Hrest Hother Hgrand.
  pose proof (element_at_exchange d i h p t) as Hex.
  specialize (fun m => Hex m Hp Ht).
  pose proof (Z.div_mod i 2 ltac:(lia)) as Hdiv.
  pose proof (Z.mod_pos_bound i 2 ltac:(lia)) as Hmod.
  set (q := i / 2) in *.
  assert (Hin_order : ∀ j ch x y, 1 ≤ j → j ≠ i →
            ch = 2 * j ∨ ch = 2 * j + 1 →
            element_at d j = Some x → element_at d ch = Some y →
            compare x y = false).
  { intros j ch x y Hj Hji Hch Hx Hy.
    apply (proj1 (outranks_false_iff compare d j ch)
             (proj1 (heap_ok_at_iff compare d j) (Hrest j Hj Hji) ch Hch));
      assumption. }
  split; [| split; [| split]].
  - rewrite Hex. destruct (Z.eqb_spec i h); [lia |].
    rewrite Z.eqb_refl. reflexivity.
  - intros j Hj Hjq. apply heap_ok_at_iff. intros ch Hch.
    apply outranks_false_iff. intros x y Hx Hy.
    rewrite Hex in Hx, Hy.
    destruct (Z.eqb_spec j h) as [-> | Hjh].
    + (* the node that received the parent's element *)
      injection Hx as <-.
      destruct (Z.eqb_spec ch h); [lia |].
      destruct (Z.eqb_spec ch i); [lia |].
      apply (proj1 (outranks_false_iff compare d i ch) (Hgrand ch Hch)); assumption.
    + destruct (Z.eqb_spec j i) as [-> | Hji].
      * (* the node that received the new element *)
        injection Hx as <-.
        destruct (Z.eqb_spec ch h).
        { injection Hy as <-. apply (swo_asym compare Hswo). exact Hpt. }
        destruct (Z.eqb_spec ch i); [lia |].
        pose proof (proj1 (outranks_false_iff compare d i ch)
                      (Hother ch Hch ltac:(assumption)) p y Hp Hy) as Hpy.
        destruct (compare t y) eqn:Hty; [| reflexivity].
        rewrite (swo_trans compare Hswo p t y Hpt Hty) in Hpy. discriminate.
      * destruct (Z.eqb_spec ch h); [lia |].
        destruct (Z.eqb_spec ch i); [lia |].
        apply (Hin_order j ch); assumption.
  - intros s Hs Hsi. apply outranks_false_iff. intros x y Hx Hy.
    pose proof (element_at_Some _ _ _ Hx) as Hq.
    rewrite Hex in Hx, Hy.
    destruct (Z.eqb_spec q h); [lia |].
    destruct (Z.eqb_spec q i); [lia |].
    destruct (Z.eqb_spec s h); [lia |].
    destruct (Z.eqb_spec s i); [lia |].
    apply (Hin_order q s); auto; lia.
  - intros ch Hch. apply outranks_false_iff. intros x y Hx Hy.
    pose proof (element_at_Some _ _ _ Hx) as Hq.
    rewrite Hex in Hx, Hy.
    destruct (Z.eqb_spec q h); [lia |].
    destruct (Z.eqb_spec q i); [lia |].
    assert (Hxp : compare x p = false)
      by (apply (Hin_order q i); auto; lia).
    destruct (Z.eqb_spec ch h).
    + injection Hy as <-. exact Hxp.
    + destruct (Z.eqb_spec ch i); [lia |].
      pose proof (proj1 (outranks_false_iff compare d i ch)
                    (Hother ch Hch ltac:(assumption)) p y Hp Hy) as Hpy.
      exact (swo_negtrans compare Hswo x p y Hxp Hpy).
Qed.

Lemma height_two d : 2 ≤ size d → ∃ k, height d = S (S k).
Proof.
  intros Hd. unfold height.
  pose proof (Z.log2_le_mono 2 (size d) Hd) as Hlog.
  change (Z.log2 2) with 1 in Hlog.
  exists (Z.to_nat (Z.log2 (size d)) - 1)%nat. lia.
Qed.

Lemma push_walk_restores (f : nat) : ∀ d i h t,
  size d ≤ PTRDIFF_MAX →
  1 ≤ i < 2 ^ Z.of_nat f →
  h = 2 * i ∨ h = 2 * i + 1 →
  element_at d h = Some t →
  (∀ j, 1 ≤ j → j ≠ i → heap_ok_at compare d j = true) →
  (∀ s, s = 2 * i ∨ s = 2 * i + 1 → s ≠ h → outranks compare d i s = false) →
  (∀ ch, ch = 2 * h ∨ ch = 2 * h + 1 → outranks compare d i ch = false) →
  ∃ d', PQ.push_walk compare (S f) d i = Ok d' ∧
        is_heap compare d' ∧ d' ≡ₚ d.
Proof.
  induction f as [| f IH]; intros d i h t Hd Hi Hh Ht Hrest Hother Hgrand.
  { change (2 ^ Z.of_nat 0) with 1 in Hi. lia. }
  pose proof (element_at_Some _ _ _ Ht) as Hhin.
  destruct (element_at_is_Some d i) as [p Hp]; [lia |].
  rewrite push_walk_unfold.
  destruct (Z.ltb_spec 0 i); [| lia].
  rewrite percolateDown_refines by (unfold PTRDIFF_MAX in *; lia).
  destruct (compare p t) eqn:Hpt.
  - (* the element moves up one level *)
    destruct (height_two d ltac:(lia)) as [k ->].
    rewrite (walk_swap k d i h t p) by (assumption || lia).
    rewrite bind_Ok. cbv iota beta.
    destruct (walk_next d i h t p ltac:(lia) Hh Ht Hp Hpt Hrest Hother Hgrand)
      as (Ht' & Hrest' & Hother' & Hgrand').
    pose proof (spec_exchange_Permutation d i h) as Hperm.
    pose proof (size_spec_exchange d i h) as Hsz.
    destruct (Z.eq_dec i 1) as [-> | Hi1].
    + (* the root was reached *)
      change (1 / 2) with 0 in *.
      exists (spec_exchange d 1 h). split; [| split; [| exact Hperm]].
      * reflexivity.
      * intros j Hj. apply Hrest'; lia.
    + pose proof (Z.div_mod i 2 ltac:(lia)) as Hdiv.
      pose proof (Z.mod_pos_bound i 2 ltac:(lia)) as Hmod.
      destruct (IH (spec_exchange d i h) (i / 2) i t) as (d' & Hrun & Hheap & Hperm').
      * lia.
      * split; [lia |].
        rewrite Nat2Z.inj_succ, Z.pow_succ_r in Hi by lia. lia.
      * lia.
      * exact Ht'.
      * exact Hrest'.
      * exact Hother'.
      * exact Hgrand'.
      * exists d'. split; [exact Hrun |]. split; [exact Hheap |].
        rewrite Hperm'. exact Hperm.
  - (* the parent is in order: the walk stops *)
    assert (Hok : heap_ok_at compare d i = true).
    { apply heap_ok_at_iff. intros ch Hch.
      destruct (Z.eq_dec ch h) as [-> | Hne].
      - rewrite (outranks_Some compare d i h p t Hp Ht). exact Hpt.
      - apply Hother; assumption. }
    rewrite spec_percolateDown_heap_noop; [| apply height_pos | exact Hok].
    rewrite bind_Ok. cbv iota beta.
    exists d. split; [reflexivity |]. split; [| reflexivity].
    intros j Hj. destruct (Z.eq_dec j i) as [-> | Hne]; [exact Hok |].
    apply Hrest; assumption.
Qed.

Lemma push_even_restores (c : list T) (t : T) :
  size c < PTRDIFF_MAX → Z.odd (size c) = true →
  is_heap compare c →
  ∃ c', PQ.push compare c t = Ok c' ∧
        is_heap compare c' ∧ c' ≡ₚ t :: c ∧ size c' = size c + 1.
Proof.
  intros Hc Hodd Hheap. unfold PQ.push. cbv zeta.
  rewrite push_start_push_back by exact Hc.
  apply Z.odd_spec in Hodd. destruct Hodd as [k Hk].
  assert (Hk0 : 0 ≤ k) by (unfold size in Hk; lia).
  assert (Hstart : (size c + 2) / 2 = k + 1).
  { rewrite Hk. replace (2 * k + 1 + 2) with (1 + (k + 1) * 2) by lia.
    rewrite Z.div_add by lia. reflexivity. }
  rewrite Hstart.
  pose proof (size_push_back c t) as Hsz.
  destruct (push_walk_restores 64 (push_back c t) (k + 1) (size c + 1) t)
    as (c' & Hrun & Hheap' & Hperm).
  - lia.
  - unfold PTRDIFF_MAX in *. change (Z.of_nat 64) with 64. lia.
  - lia.
  - apply element_at_app_last.
  - (* the nodes of the old heap *)
    intros j Hj Hne. apply heap_ok_at_iff. intros ch Hch.
    apply outranks_false_iff. intros x y Hx Hy.
    pose proof (element_at_Some _ _ _ Hy) as Hyin.
    unfold push_back in Hx, Hy.
    rewrite element_at_app_l in Hx by lia.
    rewrite element_at_app_l in Hy by lia.
    apply (proj1 (outranks_false_iff compare c j ch)
             (proj1 (heap_ok_at_iff compare c j) (Hheap j Hj) ch Hch));
      assumption.
  - intros s Hs Hne. apply outranks_absent. lia.
  - intros ch Hch. apply outranks_absent. lia.
  - exists c'. split; [exact Hrun |]. split; [exact Hheap' |].
    split.
    + rewrite Hperm. unfold push_back. symmetry. apply Permutation_cons_append.
    + apply Permutation_length in Hperm. unfold size in *. lia.
Qed.

End Walk.

(** ** Properties of [part_000] *)

(** X1.  [percolateDown(i)] in [part_000], for any comparator: it returns
    normally, the storage keeps its size and its elements (it is only
    rearranged), every element at a heap index below [i] stays where it is,
    and a [false] result means the storage is exactly as before. *)
Theorem percolateDown_only_rearranges_below
  {T : Type} (compare : T → T → bool) (c : list T) (i : Z) :
  size c ≤ PTRDIFF_MAX → 1 ≤ i ≤ PTRDIFF_MAX →
  ∃ c' changed,
    PQ.percolateDown compare c i = Ok (c', changed) ∧
    size c' = size c ∧
    c' ≡ₚ c ∧
    (∀ j, j < i → element_at c' j = element_at c j) ∧
    (changed = false → c' = c).
Proof.
  intros Hc Hi.
  destruct (percolateDown_keeps compare c i Hc Hi)
    as (c' & ch & Hrun & Hsz & Hperm & Hframe & Hsame & _).
  exists c', ch. auto.
Qed.

Lemma percolateDown_only_rearranges_below_witness :
  size [1; 4; 2; 8; 5] ≤ PTRDIFF_MAX ∧ 1 ≤ 2 ≤ PTRDIFF_MAX ∧
  ∃ c' changed,
    PQ.percolateDown Z.ltb [1; 4; 2; 8; 5] 2 = Ok (c', changed) ∧
    element_at c' 1 = element_at [1; 4; 2; 8; 5] 1.
Proof.
  assert (H1 : size [1; 4; 2; 8; 5] ≤ PTRDIFF_MAX) by (vm_compute; discriminate).
  assert (H2 : 1 ≤ 2 ≤ PTRDIFF_MAX) by (split; vm_compute; discriminate).
  split; [exact H1 |]. split; [exact H2 |].
  destruct (percolateDown_only_rearranges_below Z.ltb [1; 4; 2; 8; 5] 2 H1 H2)
    as (c' & ch & Hrun & _ & _ & Hframe & _).
  exists c', ch. split; [exact Hrun |]. apply Hframe. lia.
Defined.

(** X2.  The flag returned by [percolateDown] in [part_000] ("Return TRUE
    if anything changed"): with an irreflexive comparator it is [true]
    exactly when the storage after the call differs from the storage
    before. *)
Theorem percolateDown_flag_reports_change
  {T : Type} (compare : T → T → bool) (c c' : list T) (i : Z) (changed : bool) :
  (∀ a, compare a a = false) →
  size c ≤ PTRDIFF_MAX → 1 ≤ i ≤ PTRDIFF_MAX →
  PQ.percolateDown compare c i = Ok (c', changed) →
  (changed = true ↔ c' ≠ c).
Proof.
  intros Hirr Hc Hi Hrun.
  destruct (percolateDown_keeps compare c i Hc Hi)
    as (c1 & ch & Hrun1 & _ & _ & _ & Hsame & Hdiff).
  rewrite Hrun in Hrun1. injection Hrun1 as <- <-.
  split.
  - intros Htrue Heq. destruct (Hdiff Htrue) as (p & b & Hp & Hb & Hpb).
    rewrite Heq in Hb. assert (b = p) as -> by congruence.
    rewrite Hirr in Hpb. discriminate.
  - intros Hne. destruct changed; [reflexivity |].
    destruct Hne. apply Hsame. reflexivity.
Qed.

Lemma percolateDown_flag_reports_change_witness :
  (∀ a, Z.ltb a a = false) ∧
  size [1; 4; 2; 8; 5] ≤ PTRDIFF_MAX ∧ 1 ≤ 1 ≤ PTRDIFF_MAX ∧
  PQ.percolateDown Z.ltb [1; 4; 2; 8; 5] 1 = Ok ([4; 8; 2; 1; 5], true) ∧
  [4; 8; 2; 1; 5] ≠ [1; 4; 2; 8; 5].
Proof.
  assert (H0 : ∀ a, Z.ltb a a = false) by apply Z.ltb_irrefl.
  assert (H1 : size [1; 4; 2; 8; 5] ≤ PTRDIFF_MAX) by (vm_compute; discriminate).
  assert (H2 : 1 ≤ 1 ≤ PTRDIFF_MAX) by (split; vm_compute; discriminate).
  assert (H3 : PQ.percolateDown Z.ltb [1; 4; 2; 8; 5] 1 = Ok ([4; 8; 2; 1; 5], true))
    by (vm_compute; reflexivity).
  repeat (split; [assumption |]).
  exact (proj1 (percolateDown_flag_reports_change Z.ltb _ _ 1 true H0 H1 H2 H3)
           eq_refl).
Defined.

(** X3.  [heapify] in [part_000], for any comparator: it returns normally
    and the result holds exactly the elements of the storage, each as often
    as before. *)
Theorem heapify_keeps_elements
  {T : Type} (compare : T → T → bool) (c : list T) :
  size c ≤ INT_MAX →
  ∃ c', PQ.heapify compare c = Ok c' ∧ size c' = size c ∧ c' ≡ₚ c.
Proof. apply heapify_keeps. Qed.

Lemma heapify_keeps_elements_witness :
  size [5; 1; 9; 3; 7] ≤ INT_MAX ∧
  ∃ c', PQ.heapify Z.leb [5; 1; 9; 3; 7] = Ok c' ∧ c' ≡ₚ [5; 1; 9; 3; 7].
Proof.
  assert (H : size [5; 1; 9; 3; 7] ≤ INT_MAX) by (vm_compute; discriminate).
  split; [exact H |].
  destruct (heapify_keeps_elements Z.leb [5; 1; 9; 3; 7] H) as (c' & Hrun & _ & Hperm).
  exists c'. split; assumption.
Defined.

(** X4.  [heapify] in [part_000] leaves a storage that already satisfies
    the heap invariant exactly as it is, element by element. *)
Theorem heapify_of_heap_is_identity
  {T : Type} (compare : T → T → bool) (c : list T) :
  size c ≤ INT_MAX → is_heap compare c → PQ.heapify compare c = Ok c.
Proof. apply heapify_heap_noop. Qed.

Lemma heapify_of_heap_is_identity_witness :
  size [9; 7; 5; 3; 1] ≤ INT_MAX ∧ is_heap Z.ltb [9; 7; 5; 3; 1] ∧
  PQ.heapify Z.ltb [9; 7; 5; 3; 1] = Ok [9; 7; 5; 3; 1].
Proof.
  assert (H1 : size [9; 7; 5; 3; 1] ≤ INT_MAX) by (vm_compute; discriminate).
  assert (H2 : is_heap Z.ltb [9; 7; 5; 3; 1])
    by (apply is_heapb_is_heap; vm_compute; reflexivity).
  split; [exact H1 |]. split; [exact H2 |].
  exact (heapify_of_heap_is_identity Z.ltb [9; 7; 5; 3; 1] H1 H2).
Defined.

(** X5.  [push] in [part_000], both overloads and any comparator: it
    returns normally and the storage afterwards holds the old elements and
    the new one, nothing else. *)
Theorem push_adds_exactly_the_element
  {T : Type} (compare : T → T → bool) (c : list T) (t : T) :
  size c < PTRDIFF_MAX →
  ∃ c', PQ.push compare c t = Ok c' ∧
        PQ.push_move compare c t = Ok c' ∧
        c' ≡ₚ t :: c.
Proof.
  intros Hc. destruct (push_keeps compare c t Hc) as (c' & Hrun & _ & Hperm).
  exists c'. repeat split; assumption.
Qed.

Lemma push_adds_exactly_the_element_witness :
  size [9; 7; 5] < PTRDIFF_MAX ∧
  ∃ c', PQ.push Z.ltb [9; 7; 5] 8 = Ok c' ∧ c' ≡ₚ 8 :: [9; 7; 5].
Proof.
  assert (H : size [9; 7; 5] < PTRDIFF_MAX) by (vm_compute; reflexivity).
  split; [exact H |].
  destruct (push_adds_exactly_the_element Z.ltb [9; 7; 5] 8 H)
    as (c' & Hrun & _ & Hperm).
  exists c'. split; assumption.
Defined.

(** X6.  [push] in [part_000] when the size after the append is odd: the
    walk starts at a node without children and stops at once, so [push]
    only appends; the new element stays in the last slot whatever its
    priority. *)
Theorem push_to_odd_size_only_appends
  {T : Type} (compare : T → T → bool) (c : list T) (t : T) :
  size c < PTRDIFF_MAX → Z.even (size c) = true →
  PQ.push compare c t = Ok (c ++ [t]) ∧
  PQ.push_move compare c t = Ok (c ++ [t]).
Proof.
  intros Hc Heven. split; apply push_odd_appends; assumption.
Qed.

Lemma push_to_odd_size_only_appends_witness :
  size [7; 5; 6; 1] < PTRDIFF_MAX ∧ Z.even (size [7; 5; 6; 1]) = true ∧
  PQ.push Z.ltb [7; 5; 6; 1] 9 = Ok [7; 5; 6; 1; 9].
Proof.
  assert (H1 : size [7; 5; 6; 1] < PTRDIFF_MAX) by (vm_compute; reflexivity).
  assert (H2 : Z.even (size [7; 5; 6; 1]) = true) by reflexivity.
  split; [exact H1 |]. split; [exact H2 |].
  exact (proj1 (push_to_odd_size_only_appends Z.ltb [7; 5; 6; 1] 9 H1 H2)).
Defined.

(** X7.  [push] in [part_000] on a heap when the size after the append is
    even: the walk starts at the parent of the new leaf, and the result is
    a heap that holds the old elements and the new one. *)
Theorem push_to_even_size_restores_heap
  {T : Type} (compare : T → T → bool) (c : list T) (t : T) :
  StrictWeakOrder compare →
  size c < PTRDIFF_MAX → Z.odd (size c) = true →
  is_heap compare c →
  ∃ c', PQ.push compare c t = Ok c' ∧
        PQ.push_move compare c t = Ok c' ∧
        is_heap compare c' ∧ c' ≡ₚ t :: c ∧ size c' = size c + 1.
Proof.
  intros Hswo Hc Hodd Hheap.
  destruct (push_even_restores compare Hswo c t Hc Hodd Hheap)
    as (c' & Hrun & Hheap' & Hperm & Hsz).
  exists c'. repeat split; assumption.
Qed.

Lemma push_to_even_size_restores_heap_witness :
  StrictWeakOrder Z.ltb ∧
  size [7; 5; 6] < PTRDIFF_MAX ∧ Z.odd (size [7; 5; 6]) = true ∧
  is_heap Z.ltb [7; 5; 6] ∧
  ∃ c', PQ.push Z.ltb [7; 5; 6] 9 = Ok c' ∧ is_heap Z.ltb c'.
Proof.
  assert (H1 : size [7; 5; 6] < PTRDIFF_MAX) by (vm_compute; reflexivity).
  assert (H2 : Z.odd (size [7; 5; 6]) = true) by reflexivity.
  assert (H3 : is_heap Z.ltb [7; 5; 6])
    by (apply is_heapb_is_heap; vm_compute; reflexivity).
  split; [apply Zltb_StrictWeakOrder |].
  split; [exact H1 |]. split; [exact H2 |]. split; [exact H3 |].
  destruct (push_to_even_size_restores_heap Z.ltb [7; 5; 6] 9
              Zltb_StrictWeakOrder H1 H2 H3) as (c' & Hrun & _ & Hheap & _).
  exists c'. split; assumption.
Defined.

(** X8.  [pop] in [part_000] on any non-empty storage, heap or not, and for
    any comparator: it returns normally, the element removed is the one that
    was at storage offset 0, every other element is kept, and the size
    decreases by one. *)
Theorem pop_removes_the_front_element
  {T : Type} (compare : T → T → bool) (c : list T) :
  1 ≤ size c → size c ≤ PTRDIFF_MAX →
  ∃ c' front,
    PQ.pop compare c = Ok c' ∧
    c !! 0%nat = Some front ∧
    size c' = size c - 1 ∧
    front :: c' ≡ₚ c.
Proof. apply pop_keeps. Qed.

Lemma pop_removes_the_front_element_witness :
  1 ≤ size [3; 8; 1; 9] ∧ size [3; 8; 1; 9] ≤ PTRDIFF_MAX ∧
  ∃ c', PQ.pop Z.ltb [3; 8; 1; 9] = Ok c' ∧ 3 :: c' ≡ₚ [3; 8; 1; 9].
Proof.
  assert (H1 : 1 ≤ size [3; 8; 1; 9]) by (vm_compute; discriminate).
  assert (H2 : size [3; 8; 1; 9] ≤ PTRDIFF_MAX) by (vm_compute; discriminate).
  split; [exact H1 |]. split; [exact H2 |].
  destruct (pop_removes_the_front_element Z.ltb [3; 8; 1; 9] H1 H2)
    as (c' & front & Hrun & Hfront & _ & Hperm).
  exists c'. split; [exact Hrun |].
  injection Hfront as <-. exact Hperm.
Defined.

(** X9.  [top] on a heap in [part_000]: the element it returns is outranked
    by no element of the queue. *)
Theorem top_of_heap_is_not_outranked
  {T : Type} (compare : T → T → bool) (c c0 : list T) (x : T) :
  StrictWeakOrder compare →
  is_heap compare c →
  PQ.top c = Ok (x, c0) →
  ∀ y, y ∈ c → compare x y = false.
Proof.
  intros Hswo Hheap Htop y Hy.
  exact (heap_top_dominates compare Hswo c x c0 y Hheap Htop Hy).
Qed.

Lemma top_of_heap_is_not_outranked_witness :
  StrictWeakOrder Z.ltb ∧ is_heap Z.ltb [9; 7; 5; 3; 1] ∧
  PQ.top [9; 7; 5; 3; 1] = Ok (9, [9; 7; 5; 3; 1]) ∧
  ∀ y, y ∈ [9; 7; 5; 3; 1] → Z.ltb 9 y = false.
Proof.
  assert (H1 : is_heap Z.ltb [9; 7; 5; 3; 1])
    by (apply is_heapb_is_heap; vm_compute; reflexivity).
  assert (H2 : PQ.top [9; 7; 5; 3; 1] = Ok (9, [9; 7; 5; 3; 1])) by reflexivity.
  split; [apply Zltb_StrictWeakOrder |]. split; [exact H1 |]. split; [exact H2 |].
  exact (top_of_heap_is_not_outranked Z.ltb _ _ 9 Zltb_StrictWeakOrder H1 H2).
Defined.

(** X10.  [top], [pop], [top] on a heap in [part_000]: [pop] removes the
    element [top] returned, the storage is a heap again, and no element
    left in the queue, the next [top] in particular, outranks the element
    that was removed. *)
Theorem pop_then_top_does_not_outrank_previous_top
  {T : Type} (compare : T → T → bool) (c : list T) :
  StrictWeakOrder compare →
  1 ≤ size c → size c ≤ PTRDIFF_MAX →
  is_heap compare c →
  ∃ x c',
    PQ.top c = Ok (x, c) ∧
    PQ.pop compare c = Ok c' ∧
    x :: c' ≡ₚ c ∧
    is_heap compare c' ∧
    (∀ y, y ∈ c' → compare x y = false) ∧
    (∀ y c0, PQ.top c' = Ok (y, c0) → compare x y = false).
Proof.
  intros Hswo Hne Hc Hheap.
  destruct (pop_restores compare Hswo c Hne Hc Hheap)
    as (c' & root & Hrun & _ & _ & Hroot & Hperm & Hheap').
  assert (Htop : PQ.top c = Ok (root, c)).
  { destruct c as [| h t]; [discriminate |].
    rewrite element_at_lookup in Hroot by lia. simpl in Hroot.
    injection Hroot as ->. reflexivity. }
  assert (Hdom : ∀ y, y ∈ c' → compare root y = false).
  { intros y Hy. apply (heap_top_dominates compare Hswo c root c y Hheap Htop).
    rewrite <- Hperm. apply elem_of_cons. right. exact Hy. }
  exists root, c'. repeat split; auto.
  intros y c0 Htop'. apply Hdom.
  destruct (top_Ok_inv c' y c0 Htop') as [_ Hy].
  rewrite element_at_lookup in Hy by lia.
  apply list_elem_of_lookup. eauto.
Qed.

Lemma pop_then_top_does_not_outrank_previous_top_witness :
  StrictWeakOrder Z.ltb ∧
  1 ≤ size [9; 7; 5; 3; 1] ∧ size [9; 7; 5; 3; 1] ≤ PTRDIFF_MAX ∧
  is_heap Z.ltb [9; 7; 5; 3; 1] ∧
  ∃ x c', PQ.top [9; 7; 5; 3; 1] = Ok (x, [9; 7; 5; 3; 1]) ∧
          PQ.pop Z.ltb [9; 7; 5; 3; 1] = Ok c' ∧
          ∀ y, y ∈ c' → Z.ltb x y = false.
Proof.
  assert (H1 : 1 ≤ size [9; 7; 5; 3; 1]) by (vm_compute; discriminate).
  assert (H2 : size [9; 7; 5; 3; 1] ≤ PTRDIFF_MAX) by (vm_compute; discriminate).
  assert (H3 : is_heap Z.ltb [9; 7; 5; 3; 1])
    by (apply is_heapb_is_heap; vm_compute; reflexivity).
  split; [apply Zltb_StrictWeakOrder |].
  split; [exact H1 |]. split; [exact H2 |]. split; [exact H3 |].
  destruct (pop_then_top_does_not_outrank_previous_top Z.ltb [9; 7; 5; 3; 1]
              Zltb_StrictWeakOrder H1 H2 H3)
    as (x & c' & Htop & Hpop & _ & _ & Hdom & _).
  exists x, c'. repeat split; assumption.
Defined.

(** X11.  The range constructor of [part_000] (reserve, one [push] per
    element, then [heapify]): the queue it builds is a heap that holds
    exactly the elements of the range. *)
Theorem range_constructor_builds_heap
  {T : Type} (compare : T → T → bool) (range : list T) :
  StrictWeakOrder compare →
  Z.of_nat (length range) ≤ INT_MAX →
  ∃ c, PQ.priority_queue_range compare range = Ok c ∧
       is_heap compare c ∧ c ≡ₚ range ∧ size c = Z.of_nat (length range).
Proof.
  intros Hswo Hlen. unfold PQ.priority_queue_range, reserve, PQ.priority_queue_default.
  destruct (push_range_keeps compare range []) as (c1 & Hrun & Hsz & Hperm).
  { unfold size, INT_MAX, PTRDIFF_MAX in *. simpl length. lia. }
  rewrite Hrun, bind_Ok.
  change (size []) with 0 in Hsz. simpl app in Hperm.
  destruct (heapify_restores compare Hswo c1) as (c & Hrun' & Hsz' & Hperm' & Hheap).
  { lia. }
  exists c. split; [exact Hrun' |]. split; [exact Hheap |].
  split; [rewrite Hperm'; exact Hperm | lia].
Qed.

Lemma range_constructor_builds_heap_witness :
  StrictWeakOrder Z.ltb ∧ Z.of_nat (length [1; 4; 2; 8; 5]) ≤ INT_MAX ∧
  ∃ c, PQ.priority_queue_range Z.ltb [1; 4; 2; 8; 5] = Ok c ∧ is_heap Z.ltb c.
Proof.
  assert (H : Z.of_nat (length [1; 4; 2; 8; 5]) ≤ INT_MAX)
    by (vm_compute; discriminate).
  split; [apply Zltb_StrictWeakOrder |]. split; [exact H |].
  destruct (range_constructor_builds_heap Z.ltb [1; 4; 2; 8; 5]
              Zltb_StrictWeakOrder H) as (c & Hrun & Hheap & _).
  exists c. split; assumption.
Defined.

(** X12.  The container constructors of [part_000] followed by [top]: for a
    non-empty container the queue is built, [top] returns one of the
    container's elements, and no element of the container outranks it. *)
Theorem container_constructor_then_top_is_maximum
  {T : Type} (compare : T → T → bool) (rhs : list T) :
  StrictWeakOrder compare →
  1 ≤ size rhs → size rhs ≤ INT_MAX →
  ∃ c x,
    PQ.priority_queue_container compare rhs = Ok c ∧
    c ≡ₚ rhs ∧
    PQ.top c = Ok (x, c) ∧
    x ∈ rhs ∧
    ∀ y, y ∈ rhs → compare x y = false.
Proof.
  intros Hswo Hne Hc. unfold PQ.priority_queue_container.
  destruct (heapify_restores compare Hswo rhs Hc) as (c & Hrun & Hsz & Hperm & Hheap).
  destruct c as [| x c].
  { unfold size in *. simpl in Hsz. lia. }
  exists (x :: c), x. split; [exact Hrun |]. split; [exact Hperm |].
  assert (Htop : PQ.top (x :: c) = Ok (x, x :: c)) by reflexivity.
  split; [exact Htop |]. split.
  - rewrite <- Hperm. apply elem_of_cons. left. reflexivity.
  - intros y Hy.
    apply (heap_top_dominates compare Hswo (x :: c) x (x :: c) y Hheap Htop).
    rewrite Hperm. exact Hy.
Qed.

Lemma container_constructor_then_top_is_maximum_witness :
  StrictWeakOrder Z.ltb ∧
  1 ≤ size [5; 1; 9; 3; 7] ∧ size [5; 1; 9; 3; 7] ≤ INT_MAX ∧
  ∃ c x, PQ.priority_queue_container Z.ltb [5; 1; 9; 3; 7] = Ok c ∧
         PQ.top c = Ok (x, c) ∧
         ∀ y, y ∈ [5; 1; 9; 3; 7] → Z.ltb x y = false.
Proof.
  assert (H1 : 1 ≤ size [5; 1; 9; 3; 7]) by (vm_compute; discriminate).
  assert (H2 : size [5; 1; 9; 3; 7] ≤ INT_MAX) by (vm_compute; discriminate).
  split; [apply Zltb_StrictWeakOrder |]. split; [exact H1 |]. split; [exact H2 |].
  destruct (container_constructor_then_top_is_maximum Z.ltb [5; 1; 9; 3; 7]
              Zltb_StrictWeakOrder H1 H2) as (c & x & Hrun & _ & Htop & _ & Hmax).
  exists c, x. repeat split; assumption.
Defined.

(** ** Properties of [priority_queue.h] *)

(** X13.  The range constructor of [priority_queue.h]: its [push] never
    appends, so the queue it builds is empty whatever the range holds. *)
Theorem stub_range_constructor_builds_empty_queue
  {T : Type} (lt : T → T → bool) (range : list T) :
  PQStub.priority_queue_range lt range = Ok [].
Proof.
  unfold PQStub.priority_queue_range, reserve, PQStub.priority_queue_default.
  apply stub_push_range_empty.
Qed.

(** X14.  The container constructors of [priority_queue.h]: for every
    non-empty container the [heapify] they run ends in [percolateDown(0)]
    and reads outside the storage; only the empty container is taken
    over. *)
Theorem stub_container_constructor_reads_out_of_bounds
  {T : Type} (lt : T → T → bool) (rhs : list T) :
  size rhs ≤ INT_MAX →
  PQStub.priority_queue_container lt rhs =
    match rhs with
    | [] => Ok []
    | _ :: _ => Undefined
    end.
Proof.
  intros Hc. unfold PQStub.priority_queue_container.
  destruct rhs as [| h t]; [reflexivity |].
  apply stub_heapify_fails; [| exact Hc].
  unfold size. simpl length. lia.
Qed.

Lemma stub_container_constructor_reads_out_of_bounds_witness :
  size [5; 1; 9] ≤ INT_MAX ∧
  PQStub.priority_queue_container Z.ltb [5; 1; 9] = Undefined.
Proof.
  assert (H : size [5; 1; 9] ≤ INT_MAX) by (vm_compute; discriminate).
  split; [exact H |].
  exact (stub_container_constructor_reads_out_of_bounds Z.ltb [5; 1; 9] H).
Defined.

(** X15.  [push] in [priority_queue.h], both overloads: it returns
    normally, the size is unchanged and the storage holds exactly the
    elements it held before; the element passed in is never stored. *)
Theorem stub_push_never_stores_the_element
  {T : Type} (lt : T → T → bool) (c : list T) (t : T) :
  size c ≤ PTRDIFF_MAX →
  ∃ c', PQStub.push lt c t = Ok c' ∧
        PQStub.push_move lt c t = Ok c' ∧
        size c' = size c ∧ c' ≡ₚ c.
Proof.
  intros Hc. destruct (stub_push_keeps lt c t Hc) as (c' & Hrun & Hsz & Hperm).
  exists c'. repeat split; assumption.
Qed.

Lemma stub_push_never_stores_the_element_witness :
  size [1; 2; 3] ≤ PTRDIFF_MAX ∧
  ∃ c', PQStub.push Z.ltb [1; 2; 3] 9 = Ok c' ∧ c' ≡ₚ [1; 2; 3].
Proof.
  assert (H : size [1; 2; 3] ≤ PTRDIFF_MAX) by (vm_compute; discriminate).
  split; [exact H |].
  destruct (stub_push_never_stores_the_element Z.ltb [1; 2; 3] 9 H)
    as (c' & Hrun & _ & _ & Hperm).
  exists c'. split; assumption.
Defined.

(** X16.  [percolateDown(i)] in [priority_queue.h] for a heap index
    [i >= 1]: it returns normally (no access leaves the storage), keeps the
    size and the elements, and returns [false] only when nothing moved. *)
Theorem stub_percolateDown_from_one_is_safe
  {T : Type} (lt : T → T → bool) (c : list T) (i : Z) :
  size c ≤ PTRDIFF_MAX → 1 ≤ i ≤ PTRDIFF_MAX →
  ∃ c' changed,
    PQStub.percolateDown lt c i = Ok (c', changed) ∧
    size c' = size c ∧ c' ≡ₚ c ∧ (changed = false → c' = c).
Proof. apply stub_percolateDown_keeps. Qed.

Lemma stub_percolateDown_from_one_is_safe_witness :
  size [1; 2; 3] ≤ PTRDIFF_MAX ∧ 1 ≤ 1 ≤ PTRDIFF_MAX ∧
  ∃ c' changed, PQStub.percolateDown Z.ltb [1; 2; 3] 1 = Ok (c', changed) ∧
                c' ≡ₚ [1; 2; 3].
Proof.
  assert (H1 : size [1; 2; 3] ≤ PTRDIFF_MAX) by (vm_compute; discriminate).
  assert (H2 : 1 ≤ 1 ≤ PTRDIFF_MAX) by (split; vm_compute; discriminate).
  split; [exact H1 |]. split; [exact H2 |].
  destruct (stub_percolateDown_from_one_is_safe Z.ltb [1; 2; 3] 1 H1 H2)
    as (c' & ch & Hrun & _ & Hperm & _).
  exists c', ch. split; assumption.
Defined.

(** X17.  [percolateDown(0)] in [part_000]: heap index 0 is never a valid
    argument; on every storage, the empty one included, the call reads
    offset [0 - 1], outside the storage.  ([heapify] passes [i + 1], [pop]
    passes 1 and [push] tests [i > 0] first.) *)
Theorem percolateDown_zero_reads_out_of_bounds
  {T : Type} (compare : T → T → bool) (c : list T) :
  size c ≤ PTRDIFF_MAX →
  PQ.percolateDown compare c 0 = Undefined.
Proof.
  intros Hc. unfold PQ.percolateDown, height.
  rewrite percolateDown_fuel_unfold. cbv zeta.
  change (wrap_size_t (2 * 0)) with 0.
  change (wrap_size_t (0 + 1)) with 1.
  assert (Hout : index c (wrap_size_t (0 - 1)) = Undefined).
  { apply index_out. change (wrap_size_t (0 - 1)) with (2 ^ 64 - 1).
    unfold PTRDIFF_MAX in Hc. lia. }
  destruct (Z.leb_spec 1 (size c)) as [Hne | Hempty].
  - rewrite Hout. reflexivity.
  - rewrite bind_Ok.
    destruct (Z.leb_spec 0 (size c)); [| unfold size in *; lia].
    rewrite Hout. reflexivity.
Qed.

Lemma percolateDown_zero_reads_out_of_bounds_witness :
  size ([] : list Z) ≤ PTRDIFF_MAX ∧
  PQ.percolateDown Z.ltb [] 0 = Undefined ∧
  PQ.percolateDown Z.ltb [5; 1; 9] 0 = Undefined.
Proof.
  assert (H1 : size ([] : list Z) ≤ PTRDIFF_MAX) by (vm_compute; discriminate).
  assert (H2 : size [5; 1; 9] ≤ PTRDIFF_MAX) by (vm_compute; discriminate).
  split; [exact H1 |]. split.
  - exact (percolateDown_zero_reads_out_of_bounds Z.ltb [] H1).
  - exact (percolateDown_zero_reads_out_of_bounds Z.ltb [5; 1; 9] H2).
Defined.
